(** * Lead management backend: CSV import pipeline and access tokens

    A shallow embedding of [src/models.py] and of the import and token code of
    [src/main.py].

    - The uploaded file enters as the outcome of [content.decode] and
      [pandas.read_csv]: an exception of one of them, a frame of string cells
      under the default integer index, or a frame of string cells under the
      index the parser took from the file.
    - The database is a session over the two tables: the state of the last
      commit, the state the queries of the session see, and the record of
      the calls issued.  The development follows the requests whose queries,
      [add] and [flush] return; each write call of the transaction (bulk
      insert, update, commit) either returns or raises, as a record of
      faults decides.
    - Integer primary keys are natural numbers, and a new row takes the
      successor of the largest id of its table.
    - The wall clock is an argument of the token functions. *)

From stdpp Require Import gmap strings list fin_maps pretty.
From Stdlib Require Import ZArith.



(** ** models.py *)

Inductive Source := REFERRAL | WEBSITE | COLD_CALL | EVENT.
Inductive Interest := LOW | MEDIUM | HIGH.
Inductive Status := NEW | CONTACTED | QUALIFIED | CLOSED.

(** What the handlers of the row loop can catch: [ValueError cls v] is the
    exception of a failed enum lookup (its text is "<repr v> is not a valid
    <cls>"), [KeyError c] the one of a column lookup on a row. *)
Inductive RowException :=
| ValueError (cls : string) (value : string)
| KeyError (column : string).

(** [Source(v)], [Interest(v)], [Status(v)]: lookup of an enum member by its
    value. *)
Definition Source_of (v : string) : RowException + Source :=
  if decide (v = "Referral") then inr REFERRAL
  else if decide (v = "Website") then inr WEBSITE
  else if decide (v = "Cold Call") then inr COLD_CALL
  else if decide (v = "Event") then inr EVENT
  else inl (ValueError "Source" v).

Definition Interest_of (v : string) : RowException + Interest :=
  if decide (v = "Low") then inr LOW
  else if decide (v = "Medium") then inr MEDIUM
  else if decide (v = "High") then inr HIGH
  else inl (ValueError "Interest" v).

Definition Status_of (v : string) : RowException + Status :=
  if decide (v = "New") then inr NEW
  else if decide (v = "Contacted") then inr CONTACTED
  else if decide (v = "Qualified") then inr QUALIFIED
  else if decide (v = "Closed") then inr CLOSED
  else inl (ValueError "Status" v).

(** The table [leads]. *)
Module Lead.
Record t := mk {
  id : nat;
  name : string;
  contact_information : string;
  source : Source;
  interest : Interest;
  status : Status;
  assigned_salesperson_name : string;
  salesperson_id : option nat
}.
End Lead.

(** The table [sales_persons]. *)
Module SalesPerson.
Record t := mk {
  id : nat;
  name : string;
  hashed_password : string
}.
End SalesPerson.

(** ** The database session

    [stored] is what the last commit left, [pending] what the queries of the
    session see (flushed and not yet committed), [calls] the calls issued so
    far, oldest first. *)

Record Database := {
  leads : list Lead.t;
  sales_persons : list SalesPerson.t
}.

(** The dictionary [lead_data] of the row loop. *)
Record LeadData := {
  name : string;
  contact_information : string;
  source : Source;
  interest : Interest;
  status : Status;
  assigned_salesperson_name : string;
  salesperson_id : option nat
}.

Inductive DbCall :=
| QuerySalesPerson (name : string)
| AddSalesPerson (name : string)
| QueryContacts
| QueryLead (contact : string)
| BulkInsert (mappings : list LeadData)
| UpdateLead (lead_id : nat) (values : LeadData)
| Commit
| Rollback.

Record Session := {
  stored : Database;
  pending : Database;
  calls : list DbCall
}.

Definition log (c : DbCall) (db : Session) : Session :=
  {| stored := stored db; pending := pending db; calls := calls db ++ [c] |}.

Definition with_pending (d : Database) (db : Session) : Session :=
  {| stored := stored db; pending := d; calls := calls db |}.

(** The next value of an integer primary key. *)
Definition next_id (ids : list nat) : nat := S (max_list ids).

(** [db.query(SalesPerson).filter(SalesPerson.name == n).first()] *)
Definition query_salesperson (n : string) (db : Session)
  : option SalesPerson.t * Session :=
  (snd <$> list_find (λ p, SalesPerson.name p = n) (sales_persons (pending db)),
   log (QuerySalesPerson n) db).

(** [db.add(SalesPerson(name=n, hashed_password="temporary_hash"))] followed
    by [db.flush()]; returns the new row, whose id the flush has set. *)
Definition add_salesperson (n : string) (db : Session)
  : SalesPerson.t * Session :=
  let d := pending db in
  let p := SalesPerson.mk (next_id (SalesPerson.id <$> sales_persons d))
                          n "temporary_hash" in
  (p, log (AddSalesPerson n)
        (with_pending {| leads := leads d;
                         sales_persons := sales_persons d ++ [p] |} db)).

(** [db.query(Lead.contact_information).all()], first column of each row. *)
Definition query_contacts (db : Session) : list string * Session :=
  (Lead.contact_information <$> leads (pending db), log QueryContacts db).

(** [db.query(Lead).filter(Lead.contact_information == c).first()] *)
Definition query_lead (c : string) (db : Session) : option Lead.t * Session :=
  (snd <$> list_find (λ l, Lead.contact_information l = c) (leads (pending db)),
   log (QueryLead c) db).

(** A mapping of [bulk_insert_mappings] turned into a row with the given id. *)
Definition lead_of_data (i : nat) (d : LeadData) : Lead.t :=
  Lead.mk i (name d) (contact_information d) (source d) (interest d)
          (status d) (assigned_salesperson_name d) (salesperson_id d).

Fixpoint insert_leads (ls : list Lead.t) (ds : list LeadData) : list Lead.t :=
  match ds with
  | [] => ls
  | d :: ds' => insert_leads (ls ++ [lead_of_data (next_id (Lead.id <$> ls)) d]) ds'
  end.

(** [db.bulk_insert_mappings(Lead, ds)] when it does not raise. *)
Definition bulk_insert_mappings (ds : list LeadData) (db : Session) : Session :=
  let d := pending db in
  log (BulkInsert ds)
      (with_pending {| leads := insert_leads (leads d) ds;
                       sales_persons := sales_persons d |} db).

(** [db.query(Lead).filter(Lead.id == i).update(d)] when it does not raise:
    every row of that id takes the values of [d]. *)
Definition update_rows (i : nat) (d : LeadData) (ls : list Lead.t)
  : list Lead.t :=
  (λ l, if decide (Lead.id l = i) then lead_of_data i d else l) <$> ls.

Definition update_lead (i : nat) (d : LeadData) (db : Session) : Session :=
  let t := pending db in
  log (UpdateLead i d)
      (with_pending {| leads := update_rows i d (leads t);
                       sales_persons := sales_persons t |} db).

(** [db.commit()] when it does not raise, and [db.rollback()]. *)
Definition commit (db : Session) : Session :=
  {| stored := pending db; pending := pending db; calls := calls db ++ [Commit] |}.

Definition rollback (db : Session) : Session :=
  {| stored := stored db; pending := stored db; calls := calls db ++ [Rollback] |}.

(** Which of the write calls of the transaction raise, as the database
    decides it (constraint violations under concurrent writers, lost
    connections): the bulk insert, the [k]-th update of the batch, the
    commit.  Each carries the text of its exception. *)
Record Faults := {
  bulk_insert_raises : option string;
  update_raises : nat → option string;
  commit_raises : option string
}.

Definition no_faults : Faults :=
  {| bulk_insert_raises := None; update_raises := λ _, None;
     commit_raises := None |}.

(** ** main.py: request and response schemas *)

(** The value of [index + 2] that a row error shows: an integer, or a float,
    which is kept as the text the message shows.  Under the default index it
    is the position of the row plus 2, a natural number. *)
Inductive RowNumber :=
| IntRow (n : Z)
| FloatRow (text : string).

Definition RowNumber_of_nat (n : nat) : RowNumber := IntRow (Z.of_nat n).
Coercion RowNumber_of_nat : nat >-> RowNumber.

(** The entries of [errors].  Their texts in the source:
    "Row <row>: Missing required field (Name or Contact Info).",
    "Row <row>: Invalid enum value - <repr value> is not a valid <cls>",
    "Row <row>: Error processing row - <e>",
    "Database error prevented import: <e>". *)
Inductive ErrorMsg :=
| MissingRequiredField (row : RowNumber)
| InvalidEnumValue (row : RowNumber) (cls : string) (value : string)
| RowProcessingError (row : RowNumber) (e : RowException)
| DatabaseError (e : string).

Module LoadResult.
Record t := mk {
  filename : string;
  rows_processed : nat;
  rows_imported : nat;
  rows_updated : nat;
  duplicates_found : nat;
  errors : list ErrorMsg
}.
End LoadResult.

(** What the client gets: the [HTTPException] the endpoint raised, its
    result, or the answer of status 500 that the server makes of an exception
    no handler of the endpoint caught. *)
Inductive Response :=
| HTTPException (status_code : nat) (detail : string)
| Returns (result : LoadResult.t)
| Unhandled (exception : string).

(** [str(e)] of an [HTTPException], as Starlette defines it: the status
    code, a colon and the detail. *)
Definition HTTPException_str (status_code : nat) (detail : string) : string :=
  pretty status_code +:+ ": " +:+ detail.

(** ** The parsed upload

    [content.decode("utf-8")] of line 262 and
    [pandas.read_csv(stream, dtype=str).fillna('')] of line 272: an exception
    of the decoding, an exception of the parser, or a frame.

    A [DataFrame] has its column labels and its data rows under the default
    index, which numbers the rows from 0; a row holds its cells by position,
    and a cell the parser left empty reads as the empty string.

    When the data rows carry more fields than the header has names, the
    parser makes the leading fields the index: each row then comes under a
    label.  The loop only ever computes [index + 2] of a label, so a label is
    kept as far as that needs: an integer (a truth value counts as 1 or 0), a
    float as the text that [index + 2] shows, a string, or the tuple of a
    MultiIndex. *)
Record DataFrame := {
  columns : list string;
  rows : list (list string)
}.

Inductive Label :=
| IntLabel (i : Z)
| FloatLabel (index_plus_2_text : string)
| StrLabel (s : string)
| TupleLabel (repr : string).

Record LabelledFrame := {
  labelled_columns : list string;
  labelled_rows : list (Label * list string)
}.

(** The columns and the rows of a labelled frame, without the labels. *)
Definition unlabelled (lf : LabelledFrame) : DataFrame :=
  {| columns := labelled_columns lf; rows := snd <$> labelled_rows lf |}.

Inductive ReadCsv :=
| UnicodeDecodeError (e : string)
| EmptyDataError
| ParserError (e : string)
| Frame (df : DataFrame)
| IndexedFrame (lf : LabelledFrame).

(** [len(df)] of line 273, when there is a frame. *)
Definition len_df (csv : ReadCsv) : option nat :=
  match csv with
  | Frame df => Some (length (rows df))
  | IndexedFrame lf => Some (length (labelled_rows lf))
  | _ => None
  end.

Definition double_quote : string := String (Ascii.ascii_of_nat 34) "".

(** [index + 2] of lines 330, 349 and 353: the number, or the text of the
    [TypeError] of an operand that is no number. *)
Definition index_plus_2 (index : Label) : string + RowNumber :=
  match index with
  | IntLabel i => inr (IntRow (i + 2))
  | FloatLabel text => inr (FloatRow text)
  | StrLabel _ =>
      inl ("can only concatenate str (not " +:+ double_quote +:+ "int"
           +:+ double_quote +:+ ") to str")
  | TupleLabel _ =>
      inl ("can only concatenate tuple (not " +:+ double_quote +:+ "int"
           +:+ double_quote +:+ ") to tuple")
  end.

Definition col_index (cols : list string) (c : string) : option nat :=
  fst <$> list_find (λ x, x = c) cols.

(** [row[c]] *)
Definition row_get (cols : list string) (row : list string) (c : string)
  : RowException + string :=
  match col_index cols c with
  | Some i => inr (default "" (row !! i))
  | None => inl (KeyError c)
  end.

(** [df[c]] *)
Definition df_get (df : DataFrame) (c : string) : RowException + list string :=
  match col_index (columns df) c with
  | Some i => inr ((λ row, default "" (row !! i)) <$> rows df)
  | None => inl (KeyError c)
  end.

(** [Series.unique()]: the distinct values in order of first appearance. *)
Fixpoint unique (l : list string) : list string :=
  match l with
  | [] => []
  | x :: l' => x :: filter (λ y, y ≠ x) (unique l')
  end.

Definition endswith (s suffix : string) : bool :=
  bool_decide (String.list_ascii_of_string suffix
                 `suffix_of` String.list_ascii_of_string s).

Definition required_columns : list string :=
  ["Lead Name"; "Contact Information"; "Source"; "Interest Level"; "Status";
   "Assigned Salesperson"].

(** [', '.join(l)] *)
Fixpoint join (sep : string) (l : list string) : string :=
  match l with
  | [] => ""
  | [x] => x
  | x :: l' => x +:+ sep +:+ join sep l'
  end.

(** ** Salesperson resolution (lines 282-306) *)

Definition resolve_salesperson (acc : gmap string nat * Session)
  (salesperson_name : string) : gmap string nat * Session :=
  let '(salesperson_map, db) := acc in
  if decide (salesperson_name = "") then acc
  else
    let '(existing_salesperson, db) := query_salesperson salesperson_name db in
    match existing_salesperson with
    | Some p => (<[salesperson_name := SalesPerson.id p]> salesperson_map, db)
    | None =>
        let '(new_salesperson, db) := add_salesperson salesperson_name db in
        (<[salesperson_name := SalesPerson.id new_salesperson]> salesperson_map, db)
    end.

Definition resolve_salespersons (unique_salespersons : list string)
  (db : Session) : gmap string nat * Session :=
  foldl resolve_salesperson (∅, db) unique_salespersons.

(** ** The row loop (lines 312-355) *)

Record Batch := {
  leads_to_insert : list LeadData;
  leads_to_update : list (nat * LeadData);
  errors : list ErrorMsg;
  duplicates_found : nat;
  existing_contacts : gset string
}.

(** Sequencing of statements that may raise. *)
Global Instance exc_bind : MBind (sum RowException) :=
  λ A B f x, match x with inl e => inl e | inr a => f a end.

(** [salesperson_map.get(n) if n else None] *)
Definition salesperson_id_of (salesperson_map : gmap string nat)
  (salesperson_name : string) : option nat :=
  if decide (salesperson_name = "") then None
  else salesperson_map !! salesperson_name.

(** Lines 314-327: the cells of the row and the dictionary built from them,
    in the order of evaluation of the source. *)
Definition lead_data_of_row (cols : list string)
  (salesperson_map : gmap string nat) (row : list string)
  : RowException + LeadData :=
  contact_info ← row_get cols row "Contact Information";
  salesperson_name ← row_get cols row "Assigned Salesperson";
  let salesperson_id := salesperson_id_of salesperson_map salesperson_name in
  lead_name ← row_get cols row "Lead Name";
  src ← row_get cols row "Source";
  src ← Source_of src;
  int ← row_get cols row "Interest Level";
  int ← Interest_of int;
  sta ← row_get cols row "Status";
  sta ← Status_of sta;
  inr {| name := lead_name; contact_information := contact_info;
         source := src; interest := int; status := sta;
         assigned_salesperson_name := salesperson_name;
         salesperson_id := salesperson_id |}.

Definition add_error (e : ErrorMsg) (b : Batch) : Batch :=
  {| leads_to_insert := leads_to_insert b;
     leads_to_update := leads_to_update b;
     errors := errors b ++ [e];
     duplicates_found := duplicates_found b;
     existing_contacts := existing_contacts b |}.

(** Lines 336-341: the contact is already known. *)
Definition add_duplicate (existing_lead : option Lead.t) (d : LeadData)
  (b : Batch) : Batch :=
  {| leads_to_insert := leads_to_insert b;
     leads_to_update :=
       match existing_lead with
       | Some l => leads_to_update b ++ [(Lead.id l, d)]
       | None => leads_to_update b
       end;
     errors := errors b;
     duplicates_found := S (duplicates_found b);
     existing_contacts := existing_contacts b |}.

(** Lines 342-345: a new contact. *)
Definition add_insert (d : LeadData) (b : Batch) : Batch :=
  {| leads_to_insert := leads_to_insert b ++ [d];
     leads_to_update := leads_to_update b;
     errors := errors b;
     duplicates_found := duplicates_found b;
     existing_contacts := {[contact_information d]} ∪ existing_contacts b |}.

(** One iteration of [for index, row in df.iterrows()] under the default
    index, where [index] is the position of the row: [index + 2] is a number
    and the handlers return. *)
Definition process_row (cols : list string) (salesperson_map : gmap string nat)
  (index : nat) (row : list string) (st : Batch * Session) : Batch * Session :=
  let '(b, db) := st in
  match lead_data_of_row cols salesperson_map row with
  | inl (ValueError cls v) => (add_error (InvalidEnumValue (index + 2) cls v) b, db)
  | inl e => (add_error (RowProcessingError (index + 2) e) b, db)
  | inr lead_data =>
      if decide (name lead_data = "" ∨ contact_information lead_data = "")
      then (add_error (MissingRequiredField (index + 2)) b, db)
      else if decide (contact_information lead_data ∈ existing_contacts b)
      then
        let '(existing_lead, db) :=
          query_lead (contact_information lead_data) db in
        (add_duplicate existing_lead lead_data b, db)
      else (add_insert lead_data b, db)
  end.

Fixpoint process_rows (cols : list string) (salesperson_map : gmap string nat)
  (index : nat) (rs : list (list string)) (st : Batch * Session)
  : Batch * Session :=
  match rs with
  | [] => st
  | row :: rs' =>
      process_rows cols salesperson_map (S index) rs'
        (process_row cols salesperson_map index row st)
  end.

(** One iteration of the loop on a row under a label of the file.  Each of
    the three error messages needs [index + 2].  When that raises in a
    handler (lines 349 and 353) the exception leaves the loop; when it raises
    at line 330 the handler of line 352 catches it and raises it anew on its
    own message.  A row that is no error never computes it. *)
Definition process_labelled_row (cols : list string)
  (salesperson_map : gmap string nat) (index : Label) (row : list string)
  (st : Batch * Session) : string + (Batch * Session) :=
  let '(b, db) := st in
  match lead_data_of_row cols salesperson_map row with
  | inl (ValueError cls v) =>
      match index_plus_2 index with
      | inr number => inr (add_error (InvalidEnumValue number cls v) b, db)
      | inl e => inl e
      end
  | inl e =>
      match index_plus_2 index with
      | inr number => inr (add_error (RowProcessingError number e) b, db)
      | inl e => inl e
      end
  | inr lead_data =>
      if decide (name lead_data = "" ∨ contact_information lead_data = "")
      then
        match index_plus_2 index with
        | inr number => inr (add_error (MissingRequiredField number) b, db)
        | inl e => inl e
        end
      else if decide (contact_information lead_data ∈ existing_contacts b)
      then
        let '(existing_lead, db) :=
          query_lead (contact_information lead_data) db in
        inr (add_duplicate existing_lead lead_data b, db)
      else inr (add_insert lead_data b, db)
  end.

(** The loop over the rows of a labelled frame: the batch and the session it
    ends with, or the text of the exception that left it and the session at
    that point. *)
Fixpoint process_labelled_rows (cols : list string)
  (salesperson_map : gmap string nat) (rs : list (Label * list string))
  (st : Batch * Session) : (string * Session) + (Batch * Session) :=
  match rs with
  | [] => inr st
  | (index, row) :: rs' =>
      match process_labelled_row cols salesperson_map index row st with
      | inl e => inl (e, st.2)
      | inr st' => process_labelled_rows cols salesperson_map rs' st'
      end
  end.

(** Lines 308-310: the batch before the first row. *)
Definition initial_batch (contacts : list string) : Batch :=
  {| leads_to_insert := []; leads_to_update := []; errors := [];
     duplicates_found := 0; existing_contacts := list_to_set contacts |}.

(** ** The transaction (lines 370-394)

    A write call either raises, leaving the text of its exception and the
    session as it stood, or goes on with a value and the next session. *)
Definition Tx (A : Type) : Type := Session → (string * Session) + (A * Session).

Global Instance Tx_ret : MRet Tx := λ A a db, inr (a, db).
Global Instance Tx_bind : MBind Tx :=
  λ A B f m db, match m db with inl x => inl x | inr (a, db') => f a db' end.

(** A write call under the faults of the database. *)
Definition call (raises : option string) (c : DbCall)
  (run : Session → Session) : Tx () :=
  λ db, match raises with
        | Some e => inl (e, log c db)
        | None => inr ((), run db)
        end.

Fixpoint update_leads (F : Faults) (k : nat) (us : list (nat * LeadData))
  : Tx () :=
  match us with
  | [] => mret ()
  | (lead_id, lead_data) :: us' =>
      _ ← call (update_raises F k) (UpdateLead lead_id lead_data)
               (update_lead lead_id lead_data);
      update_leads F (S k) us'
  end.

(** The body of the [try] of line 371; the value is
    [(rows_imported, rows_updated)]. *)
Definition transaction (F : Faults) (ins : list LeadData)
  (upd : list (nat * LeadData)) : Tx (nat * nat) :=
  rows_imported ←
    (if decide (ins = []) then mret 0
     else _ ← call (bulk_insert_raises F) (BulkInsert ins)
                   (bulk_insert_mappings ins);
          mret (length ins));
  rows_updated ←
    (if decide (upd = []) then mret 0
     else _ ← update_leads F 0 upd; mret (length upd));
  _ ← call (commit_raises F) Commit commit;
  mret (rows_imported, rows_updated).

(** ** load_data_file (lines 247-403)

    The body of the outer [try]: what it raises as an HTTP error, or the
    count of rows, the batch and the session it leaves.  The exception of
    line 280 is raised inside the [try], so the handler of line 360 catches
    it and raises the one the client gets. *)
Definition classify (df : DataFrame) (db : Session)
  : (nat * string) + (nat * Batch * Session) :=
  let rows_processed := length (rows df) in
  if negb (bool_decide (Forall (λ col, col ∈ columns df) required_columns))
  then
    let missing := filter (λ col, col ∉ columns df) required_columns in
    inl (400, "Error processing CSV file: " +:+
              HTTPException_str 400
                ("Missing required columns in CSV: " +:+ join ", " missing))
  else
    match df_get df "Assigned Salesperson" with
    | inl _ =>
        inl (400, "Error processing CSV file: 'Assigned Salesperson'")
    | inr salespersons =>
        let unique_salespersons := unique salespersons in
        let '(salesperson_map, db) :=
          resolve_salespersons unique_salespersons db in
        let '(contacts, db) := query_contacts db in
        let '(b, db) :=
          process_rows (columns df) salesperson_map 0 (rows df)
                       (initial_batch contacts, db) in
        inr (rows_processed, b, db)
    end.

(** The body of the outer [try] for a labelled frame.  An HTTP error comes
    with the session as the exception left it. *)
Definition classify_labelled (lf : LabelledFrame) (db : Session)
  : (nat * string * Session) + (nat * Batch * Session) :=
  let df := unlabelled lf in
  let rows_processed := length (labelled_rows lf) in
  if negb (bool_decide (Forall (λ col, col ∈ columns df) required_columns))
  then
    let missing := filter (λ col, col ∉ columns df) required_columns in
    inl (400, "Error processing CSV file: " +:+
              HTTPException_str 400
                ("Missing required columns in CSV: " +:+ join ", " missing), db)
  else
    match df_get df "Assigned Salesperson" with
    | inl _ =>
        inl (400, "Error processing CSV file: 'Assigned Salesperson'", db)
    | inr salespersons =>
        let unique_salespersons := unique salespersons in
        let '(salesperson_map, db) :=
          resolve_salespersons unique_salespersons db in
        let '(contacts, db) := query_contacts db in
        match process_labelled_rows (columns df) salesperson_map
                (labelled_rows lf) (initial_batch contacts, db) with
        | inl (e, db) => inl (400, "Error processing CSV file: " +:+ e, db)
        | inr (b, db) => inr (rows_processed, b, db)
        end
    end.

(** Lines 366-403: the transaction on the lists of the batch, and the
    result. *)
Definition write_batch (F : Faults) (filename : string) (rows_processed : nat)
  (b : Batch) (db : Session) : Response * Session :=
  match transaction F (leads_to_insert b) (leads_to_update b) db with
  | inr ((rows_imported, rows_updated), db) =>
      (Returns (LoadResult.mk filename rows_processed rows_imported
                  rows_updated (duplicates_found b) (errors b)), db)
  | inl (e, db) =>
      (Returns (LoadResult.mk filename rows_processed 0 0
                  (duplicates_found b)
                  (errors b ++ [DatabaseError e])), rollback db)
  end.

(** The endpoint behind its authentication gate: the name of the upload, what
    the decoding and the parser made of its content, the session of the
    request.  The name is checked before the content is read. *)
Definition load_data_file (F : Faults) (filename : string) (csv : ReadCsv)
  (db : Session) : Response * Session :=
  if negb (endswith filename ".csv")
  then (HTTPException 400 "Invalid file type. Please upload a CSV file.", db)
  else
    match csv with
    | UnicodeDecodeError e => (Unhandled e, db)
    | EmptyDataError => (HTTPException 400 "CSV file is empty.", db)
    | ParserError e =>
        (HTTPException 400 ("Error processing CSV file: " +:+ e), db)
    | Frame df =>
        match classify df db with
        | inl (status_code, detail) => (HTTPException status_code detail, db)
        | inr (rows_processed, b, db) =>
            match transaction F (leads_to_insert b) (leads_to_update b) db with
            | inr ((rows_imported, rows_updated), db) =>
                (Returns (LoadResult.mk filename rows_processed rows_imported
                            rows_updated (duplicates_found b) (errors b)), db)
            | inl (e, db) =>
                (Returns (LoadResult.mk filename rows_processed 0 0
                            (duplicates_found b)
                            (errors b ++ [DatabaseError e])), rollback db)
            end
        end
    | IndexedFrame lf =>
        match classify_labelled lf db with
        | inl (status_code, detail, db) =>
            (HTTPException status_code detail, db)
        | inr (rows_processed, b, db) =>
            write_batch F filename rows_processed b db
        end
    end.

(** Decidable equality, for counting calls and comparing batches. *)
Global Instance Source_eq_dec : EqDecision Source.
Proof. solve_decision. Defined.
Global Instance Interest_eq_dec : EqDecision Interest.
Proof. solve_decision. Defined.
Global Instance Status_eq_dec : EqDecision Status.
Proof. solve_decision. Defined.
Global Instance LeadData_eq_dec : EqDecision LeadData.
Proof. solve_decision. Defined.
Global Instance DbCall_eq_dec : EqDecision DbCall.
Proof. solve_decision. Defined.


(** ** Valid rows

    A row is valid when its dictionary can be built (every cell is there and
    the three enum cells name members) and neither its name nor its contact
    is the empty string.  Neither depends on the salesperson map. *)
Definition valid_row (cols row : list string) : bool :=
  match lead_data_of_row cols ∅ row with
  | inr d => bool_decide (name d ≠ "" ∧ contact_information d ≠ "")
  | inl _ => false
  end.

(** The cell of a row under a column that the frame has. *)
Definition cell (cols row : list string) (c : string) : string :=
  match row_get cols row c with
  | inr v => v
  | inl _ => ""
  end.

Definition contact_of (cols row : list string) : string :=
  cell cols row "Contact Information".

Definition salesperson_of (cols row : list string) : string :=
  cell cols row "Assigned Salesperson".

(** The batch and the session after the first [k] rows of the loop over [rs],
    started from the contacts the store holds. *)
Definition classified (cols : list string) (m : gmap string nat)
  (contacts : list string) (db : Session) (rs : list (list string)) (k : nat)
  : Batch * Session :=
  process_rows cols m 0 (take k rs) (initial_batch contacts, db).

(** Every list of the batch only grows, and so do the counter and the set
    of known contacts. *)
Definition grows (b b' : Batch) : Prop :=
  leads_to_insert b `prefix_of` leads_to_insert b' ∧
  leads_to_update b `prefix_of` leads_to_update b' ∧
  errors b `prefix_of` errors b' ∧
  duplicates_found b ≤ duplicates_found b' ∧
  existing_contacts b ⊆ existing_contacts b'.

(** What holds of the batch and the session after [k] rows, for a loop
    started from the contacts of the session [db]. *)
Record loop_inv (cols : list string) (m : gmap string nat) (db : Session)
  (rs : list (list string)) (k : nat) (st : Batch * Session) : Prop := {
  inv_pending : pending st.2 = pending db;
  inv_stored : stored st.2 = stored db;
  inv_known : ∀ c, c ∈ existing_contacts st.1 ↔
    c ∈ Lead.contact_information <$> leads (pending db) ∨
    c ∈ contact_information <$> leads_to_insert st.1;
  inv_insert : ∀ d, d ∈ leads_to_insert st.1 →
    (contact_information d ∉ Lead.contact_information <$> leads (pending db)) ∧
    ∃ j row, j < k ∧ rs !! j = Some row ∧ valid_row cols row = true ∧
             lead_data_of_row cols m row = inr d;
  inv_nodup : NoDup (contact_information <$> leads_to_insert st.1);
  inv_update : ∀ i d, (i, d) ∈ leads_to_update st.1 →
    ∃ l, l ∈ leads (pending db) ∧ Lead.id l = i ∧
         Lead.contact_information l = contact_information d;
  inv_seen : ∀ j row, j < k → rs !! j = Some row →
    valid_row cols row = true → contact_of cols row ∈ existing_contacts st.1
}.

(** The column of salesperson names, [df['Assigned Salesperson']]. *)
Definition salespersons_of (df : DataFrame) : list string :=
  match df_get df "Assigned Salesperson" with
  | inr names => names
  | inl _ => []
  end.

(** The map the resolution of line 288 builds for a frame. *)
Definition salesperson_map_of (df : DataFrame) (db : Session)
  : gmap string nat :=
  fst (resolve_salespersons (unique (salespersons_of df)) db).

(** [load_data_file] after the first [k] rows of its loop: the salespersons
    are resolved, the contacts read, and [k] rows classified. *)
Definition import_state (df : DataFrame) (db : Session) (k : nat)
  : Batch * Session :=
  let '(salesperson_map, db) :=
    resolve_salespersons (unique (salespersons_of df)) db in
  let '(contacts, db) := query_contacts db in
  classified (columns df) salesperson_map contacts db (rows df) k.

(** One of the write calls the transaction reaches raises: the bulk insert of
    a non-empty list, an update, or the commit. *)
Definition write_raises (F : Faults) (b : Batch) : Prop :=
  (leads_to_insert b ≠ [] ∧ is_Some (bulk_insert_raises F)) ∨
  (∃ k, k < length (leads_to_update b) ∧ is_Some (update_raises F k)) ∨
  is_Some (commit_raises F).

(** ** Sample data

    A store with one lead and one salesperson, as a request finds it, and
    frames to run the import on. *)
Definition sample_store : Database :=
  {| leads := [Lead.mk 1 "Ada" "ada@example.com" WEBSITE LOW NEW "Ann" (Some 1)];
     sales_persons := [SalesPerson.mk 1 "Ann" "hash"] |}.

Definition sample_session : Session :=
  {| stored := sample_store; pending := sample_store; calls := [] |}.

Definition sample_frame : DataFrame :=
  {| columns := required_columns;
     rows := [ ["Bob"; "bob@example.com"; "Website"; "Low"; "New"; "Joe"];
               ["Rob"; "bob@example.com"; "Event"; "High"; "New"; "Joe"];
               ["Ada L"; "ada@example.com"; "Cold Call"; "High"; "Closed"; "Ann"];
               ["Cy"; "cy@example.com"; "Referral"; "Medium"; "Contacted"; ""] ] |}.

(** A frame without the columns "Status" and "Assigned Salesperson". *)
Definition short_frame : DataFrame :=
  {| columns := ["Lead Name"; "Contact Information"; "Source"; "Interest Level"];
     rows := [ ["Bob"; "bob@example.com"; "Website"; "Low"] ] |}.

(** The database refuses the first update. *)
Definition update_fails : Faults :=
  {| bulk_insert_raises := None;
     update_raises := λ k, if decide (k = 0) then Some "connection lost" else None;
     commit_raises := None |}.

(** A row without a name whose source is not a member of the enum, and a row
    whose name is two spaces. *)
Definition blank_name_frame : DataFrame :=
  {| columns := required_columns;
     rows := [ [""; "bob@example.com"; "Unknown"; "Low"; "New"; "Joe"];
               ["  "; "cy@example.com"; "Website"; "Low"; "New"; ""] ] |}.


(** The id and the contact of each lead of a table. *)
Definition keys (ls : list Lead.t) : list (nat * string) :=
  (λ l, (Lead.id l, Lead.contact_information l)) <$> ls.

(** How many times a call was issued. *)
Definition count_calls (c : DbCall) (cs : list DbCall) : nat :=
  length (filter (λ x, x = c) cs).

(** The names of the salespersons a session sees. *)
Definition salesperson_names (db : Session) : list string :=
  SalesPerson.name <$> sales_persons (pending db).

(** The calls of the resolution of one name, given the names the session saw
    before it. *)
Definition resolution_calls (known : list string) (n : string) : list DbCall :=
  QuerySalesPerson n :: (if decide (n ∈ known) then [] else [AddSalesPerson n]).

(** ** Access tokens (lines 32-36 and 117-140)

    [jwt.encode] and [jwt.decode] are python-jose, which is not part of the
    sources.  They are modelled on the parsed token: a string is either no
    compact JWS of a JSON object, or it carries the algorithm of its header,
    its payload and its signature.  The payloads of the model are those this
    application writes: nothing but the subject as a string and the expiry
    in whole seconds, each of which may be absent.  Tokens with other claims,
    or with a subject or an expiry of another JSON type, are outside the
    model, and nothing here speaks of them.  The keyed hash is a parameter; a signature is
    valid when it is the hash of header and payload under the key.  As in the
    library, [jwt.encode] turns a datetime claim into [timegm] of its UTC time
    tuple, and [jwt.decode] checks the algorithm of the header against the
    list it is given, then the signature, then the expiry, which has passed
    when [exp < timegm(utcnow().utctimetuple())] (a leeway of zero). *)

Record Claims := {
  sub : option string;
  exp : option Z
}.

Inductive EncodedJwt :=
| Malformed (text : string)
| Jws (alg : string) (payload : Claims) (signature : string).

Inductive JWTError :=
| JWSError (msg : string)
| ExpiredSignatureError
| JWTClaimsError (msg : string).

(** Datetimes and timedeltas in microseconds, the first since the epoch. *)
Definition timedelta_minutes (minutes : Z) : Z := (minutes * 60 * 1000000)%Z.

(** [timegm(d.utctimetuple())]: the whole seconds of a datetime. *)
Definition timegm (d : Z) : Z := (d `div` 1000000)%Z.

Definition ALGORITHM : string := "HS256".
Definition ACCESS_TOKEN_EXPIRE_MINUTES : Z := 30.

Section Tokens.
(** The keyed hash HS256 of header and payload, and the secret of the
    process, [os.getenv("SECRET_KEY", ...)]. *)
Context (hmac_sha256 : string → string → Claims → string) (SECRET_KEY : string).

Definition jwt_encode (claims : Claims) (key algorithm : string) : EncodedJwt :=
  Jws algorithm claims (hmac_sha256 key algorithm claims).

Definition jwt_decode (token : EncodedJwt) (key : string) (algorithms : list string)
  (now : Z) : JWTError + Claims :=
  match token with
  | Malformed _ => inl (JWSError "Not enough segments")
  | Jws alg payload signature =>
      if decide (alg ∉ algorithms)
      then inl (JWSError "The specified alg value is not allowed")
      else if decide (signature ≠ hmac_sha256 key alg payload)
      then inl (JWSError "Signature verification failed.")
      else
        match exp payload with
        | Some e =>
            if decide (e < timegm now)%Z then inl ExpiredSignatureError
            else inr payload
        | None => inr payload
        end
  end.

(** [create_access_token(data, expires_delta)] at the time [utcnow]; [data]
    gives the subject, if any.  A timedelta of zero is falsy. *)
Definition create_access_token (data : option string)
  (expires_delta : option Z) (utcnow : Z) : EncodedJwt :=
  let expire :=
    match expires_delta with
    | Some delta =>
        if decide (delta = 0%Z)
        then (utcnow + timedelta_minutes ACCESS_TOKEN_EXPIRE_MINUTES)%Z
        else (utcnow + delta)%Z
    | None => (utcnow + timedelta_minutes ACCESS_TOKEN_EXPIRE_MINUTES)%Z
    end in
  jwt_encode {| sub := data; exp := Some (timegm expire) |} SECRET_KEY ALGORITHM.

(** [verify_token(token)] at the time [utcnow]: the dictionary with "email"
    and "exp", or [None]. *)
Definition verify_token (token : EncodedJwt) (utcnow : Z)
  : option (string * option Z) :=
  match jwt_decode token SECRET_KEY [ALGORITHM] utcnow with
  | inr payload =>
      match sub payload with
      | None => None
      | Some email => Some (email, exp payload)
      end
  | inl _ => None
  end.

(** The token of [login]: the subject is the email of the user, the lifetime
    [ACCESS_TOKEN_EXPIRE_MINUTES]. *)
Definition login_token (email : string) (utcnow : Z) : EncodedJwt :=
  create_access_token (Some email)
    (Some (timedelta_minutes ACCESS_TOKEN_EXPIRE_MINUTES)) utcnow.
End Tokens.

(** A keyed hash to run the token functions on: key, header and claims side
    by side. *)
Definition sample_hash (key alg : string) (payload : Claims) : string :=
  key +:+ "." +:+ alg +:+ "." +:+ default "" (sub payload) +:+ "."
  +:+ from_option pretty "" (exp payload).

(** ** Further notions on the import *)

(** The row number an entry of [errors] carries, if it is the error of a
    row. *)
Definition error_row (e : ErrorMsg) : option RowNumber :=
  match e with
  | MissingRequiredField row => Some row
  | InvalidEnumValue row _ _ => Some row
  | RowProcessingError row _ => Some row
  | DatabaseError _ => None
  end.

(** The numbers, as the errors count them, of the rows that are not valid,
    for rows that start at [index]. *)
Fixpoint invalid_row_numbers (cols : list string) (index : nat)
  (rs : list (list string)) : list RowNumber :=
  match rs with
  | [] => []
  | row :: rs' =>
      (if valid_row cols row then [] else [RowNumber_of_nat (index + 2)])
      ++ invalid_row_numbers cols (S index) rs'
  end.

(** ** Frames under an index of the file *)

(** [index + 2] is a number. *)
Definition numbered (index : Label) : bool :=
  match index_plus_2 index with inr _ => true | inl _ => false end.

(** No row in error comes under a label that is no number. *)
Definition loop_completes (cols : list string)
  (rs : list (Label * list string)) : bool :=
  forallb (λ r, numbered r.1 || valid_row cols r.2) rs.

(** The columns of the frame of an upload, when there is one. *)
Definition columns_of (csv : ReadCsv) : option (list string) :=
  match csv with
  | Frame df => Some (columns df)
  | IndexedFrame lf => Some (labelled_columns lf)
  | _ => None
  end.

(** What the rows of a batch are sorted into, the numbers of the rows in
    error apart. *)
Definition sorted_into (b : Batch)
  : list LeadData * list (nat * LeadData) * nat * nat * gset string :=
  (leads_to_insert b, leads_to_update b, length (errors b),
   duplicates_found b, existing_contacts b).

(** A frame whose index holds the strings of a first, unnamed field. *)
Definition labelled_sample : LabelledFrame :=
  {| labelled_columns := required_columns;
     labelled_rows :=
       [ (StrLabel "a", ["Bob"; "bob@example.com"; "Website"; "Low"; "New"; "Joe"]);
         (StrLabel "b", ["Cy"; "cy@example.com"; "Unknown"; "Low"; "New"; ""]) ] |}.

(** The same rows under integers. *)
Definition numbered_sample : LabelledFrame :=
  {| labelled_columns := required_columns;
     labelled_rows :=
       [ (IntLabel 7, ["Bob"; "bob@example.com"; "Website"; "Low"; "New"; "Joe"]);
         (IntLabel (-5), ["Cy"; "cy@example.com"; "Unknown"; "Low"; "New"; ""]) ] |}.

(** The valid rows of a frame, and the contacts among them that the session
    does not hold, each at its first appearance. *)
Definition valid_rows (df : DataFrame) : list (list string) :=
  filter (λ row, valid_row (columns df) row = true) (rows df).

Definition new_contacts (df : DataFrame) (db : Session) : list string :=
  unique (filter (λ c, c ∉ Lead.contact_information <$> leads (pending db))
            (contact_of (columns df) <$> valid_rows df)).

(** The table of leads after the updates of a list, applied in order. *)
Definition apply_updates (us : list (nat * LeadData)) (ls : list Lead.t)
  : list Lead.t :=
  foldl (λ ls u, update_rows u.1 u.2 ls) ls us.

(** The salesperson names of a frame that the session does not know, each
    once and in the order of its first row. *)
Definition new_salesperson_names (df : DataFrame) (db : Session) : list string :=
  filter (λ n, n ≠ "" ∧ n ∉ salesperson_names db) (unique (salespersons_of df)).

(** ** models.py: the values of the enums *)

Definition Source_value (s : Source) : string :=
  match s with
  | REFERRAL => "Referral" | WEBSITE => "Website"
  | COLD_CALL => "Cold Call" | EVENT => "Event"
  end.

Definition Interest_value (i : Interest) : string :=
  match i with LOW => "Low" | MEDIUM => "Medium" | HIGH => "High" end.

Definition Status_value (s : Status) : string :=
  match s with
  | NEW => "New" | CONTACTED => "Contacted"
  | QUALIFIED => "Qualified" | CLOSED => "Closed"
  end.

(** ** get_leads (lines 195-244) *)

(** The schema [LeadRead]: the fields of [LeadBase] and the id. *)
Module LeadRead.
Record t := mk {
  name : string;
  contact_information : string;
  source : Source;
  interest : Interest;
  status : Status;
  assigned_salesperson_name : string;
  id : nat
}.
End LeadRead.

(** A row of [leads] read into the schema (orm_mode). *)
Definition LeadRead_of (l : Lead.t) : LeadRead.t :=
  LeadRead.mk (Lead.name l) (Lead.contact_information l) (Lead.source l)
              (Lead.interest l) (Lead.status l)
              (Lead.assigned_salesperson_name l) (Lead.id l).

(** The conjunction of the filters of lines 212-217: a filter is there for
    each parameter that is given. *)
Definition lead_matches (source : option Source) (interest : option Interest)
  (status : option Status) (l : Lead.t) : bool :=
  match source with Some s => bool_decide (Lead.source l = s) | None => true end
  && match interest with
     | Some i => bool_decide (Lead.interest l = i) | None => true end
  && match status with
     | Some s => bool_decide (Lead.status l = s) | None => true end.

(** The answer of [get_leads]: the page and the count, the refusal of the
    parameters ([offset] has [ge=0], [limit] has [ge=1] and [le=100]), or the
    [HTTPException] of status 500 of line 241. *)
Inductive LeadsResponse :=
| RequestValidationError
| InternalServerError (detail : string)
| Leads (leads : list LeadRead.t) (total_leads : nat).

(** [get_leads(source, interest, status, offset, limit)]; an absent [offset]
    is 0, an absent [limit] is 100.  The count query takes no parameter of
    the page and returns.  The paged query binds [offset] as an integer of
    the database, which has 64 bits: on a larger one it raises, and the
    handler of line 239 answers.  The statement has no ORDER BY; the model
    takes the rows in the order of the table. *)
Definition get_leads (source : option Source) (interest : option Interest)
  (status : option Status) (offset limit : option Z) (db : Session)
  : LeadsResponse :=
  let offset := default 0%Z offset in
  let limit := default 100%Z limit in
  if decide (0 ≤ offset ∧ 1 ≤ limit ∧ limit ≤ 100)%Z then
    let matching :=
      filter (λ l, lead_matches source interest status l) (leads (pending db)) in
    let total_leads := length matching in
    if decide (2 ^ 63 ≤ offset)%Z
    then InternalServerError "Could not fetch leads from the database."
    else
      let page := take (Z.to_nat limit) (drop (Z.to_nat offset) matching) in
      Leads (LeadRead_of <$> page) total_leads
  else RequestValidationError.

(** ** Users, login and the authentication gate
       (lines 107-114, 142-191 and 405-451)

    The password hashing of passlib is a parameter: [pwd_hash salt p] is the
    digest of [p] under the salt the library draws for the call, and
    [pwd_verify p digest] its check. *)

Module UserInDB.
Record t := mk {
  email : string;
  hashed_password : string
}.
End UserInDB.

(** An endpoint or dependency that answers, or raises the [HTTPException] of
    status 401 with the header [WWW-Authenticate: Bearer]. *)
Inductive Authenticated (A : Type) :=
| Unauthorized (detail : string)
| Granted (a : A).
Arguments Unauthorized {A} detail.
Arguments Granted {A} a.

Section Auth.
Context (pwd_hash : string → string → string)
  (pwd_verify : string → string → bool)
  (hmac_sha256 : string → string → Claims → string) (SECRET_KEY : string).

Definition verify_password (plain_password hashed_password : string) : bool :=
  pwd_verify plain_password hashed_password.

Definition get_password_hash (salt password : string) : string :=
  pwd_hash salt password.

(** [get_user(email)]; [salt] is the salt of its call of the hashing. *)
Definition get_user (salt email : string) : option UserInDB.t :=
  if decide (email = "admin@example.com")
  then Some (UserInDB.mk email (get_password_hash salt "password"))
  else None.

Definition authenticate_user (salt email password : string)
  : option UserInDB.t :=
  match get_user salt email with
  | None => None
  | Some user =>
      if verify_password password (UserInDB.hashed_password user)
      then Some user else None
  end.

(** [get_current_user(token)] at the time [utcnow]. *)
Definition get_current_user (salt : string) (token : EncodedJwt) (utcnow : Z)
  : Authenticated UserInDB.t :=
  match verify_token hmac_sha256 SECRET_KEY token utcnow with
  | None => Unauthorized "Could not validate credentials"
  | Some (email, _) =>
      match get_user salt email with
      | None => Unauthorized "Could not validate credentials"
      | Some user => Granted user
      end
  end.

(** [login(formData)] at the time [utcnow]: the access token and its type. *)
Definition login (salt email password : string) (utcnow : Z)
  : Authenticated (EncodedJwt * string) :=
  match authenticate_user salt email password with
  | None => Unauthorized "Incorrect email or password"
  | Some user =>
      let access_token_expires :=
        timedelta_minutes ACCESS_TOKEN_EXPIRE_MINUTES in
      let access_token :=
        create_access_token hmac_sha256 SECRET_KEY
          (Some (UserInDB.email user)) (Some access_token_expires) utcnow in
      Granted (access_token, "bearer")
  end.

(** [verify_auth_token(token)] at the time [utcnow]: "valid" and "email". *)
Definition verify_auth_token (salt : string) (token : EncodedJwt) (utcnow : Z)
  : Authenticated (bool * string) :=
  match verify_token hmac_sha256 SECRET_KEY token utcnow with
  | None => Unauthorized "Invalid or expired token"
  | Some (email, _) =>
      match get_user salt email with
      | None => Unauthorized "User not found"
      | Some user => Granted (true, UserInDB.email user)
      end
  end.
End Auth.

(** A hashing to run the login on: the digest keeps the password as it is,
    and the check compares. *)
Definition sample_pwd_hash (salt password : string) : string := password.
Definition sample_pwd_verify (password digest : string) : bool :=
  bool_decide (password = digest).

(** * Properties *)

(** ** Cells of a frame *)

Section Frames.
Implicit Types (cols row : list string) (c : string).

Lemma col_index_is_Some cols c : c ∈ cols → is_Some (col_index cols c).
Proof.
  intros Hc. unfold col_index.
  destruct (list_find_elem_of (λ x, x = c) cols c Hc eq_refl) as [[i y] Hf].
  rewrite Hf. by eexists.
Qed.

Lemma col_index_None cols c : c ∉ cols → col_index cols c = None.
Proof.
  intros Hc. unfold col_index.
  destruct (list_find _ cols) as [[i y]|] eqn:Hf; [|done].
  apply list_find_Some in Hf as (Hl & -> & _).
  exfalso. apply Hc. by eapply list_elem_of_lookup_2.
Qed.

Lemma row_get_present cols row c :
  c ∈ cols → ∃ v, row_get cols row c = inr v.
Proof.
  intros [i Hi]%col_index_is_Some. unfold row_get. rewrite Hi. by eexists.
Qed.

Lemma df_get_present df c :
  c ∈ columns df → ∃ vs, df_get df c = inr vs ∧ length vs = length (rows df).
Proof.
  intros [i Hi]%col_index_is_Some. unfold df_get. rewrite Hi.
  eexists. split; [done|]. by rewrite length_fmap.
Qed.
End Frames.

(** ** One iteration of the row loop *)

Section Rows.
Context (cols : list string).
Implicit Types (m : gmap string nat) (row : list string) (b : Batch)
  (db : Session) (d : LeadData).

Lemma lead_data_of_row_inr m row d :
  lead_data_of_row cols m row = inr d →
  contact_information d = contact_of cols row ∧
  assigned_salesperson_name d = salesperson_of cols row ∧
  salesperson_id d = salesperson_id_of m (salesperson_of cols row) ∧
  ∀ m', ∃ d', lead_data_of_row cols m' row = inr d' ∧
              name d' = name d ∧
              contact_information d' = contact_information d.
Proof.
  unfold lead_data_of_row, contact_of, salesperson_of, cell, mbind, exc_bind.
  repeat (case_match; try done).
  intros [= <-]; simpl. repeat split; try done.
  intros m'. eexists. split; [done|]. done.
Qed.

Lemma lead_data_of_row_inl m m' row e :
  lead_data_of_row cols m row = inl e → lead_data_of_row cols m' row = inl e.
Proof.
  unfold lead_data_of_row, mbind, exc_bind.
  repeat (case_match; try done).
Qed.

Lemma valid_row_true m row :
  valid_row cols row = true ↔
  ∃ d, lead_data_of_row cols m row = inr d ∧ name d ≠ "" ∧
       contact_information d ≠ "".
Proof.
  unfold valid_row. split.
  - destruct (lead_data_of_row cols ∅ row) as [|d0] eqn:H0; [done|].
    intros [Hn Hc]%bool_decide_eq_true.
    apply lead_data_of_row_inr in H0 as (_ & _ & _ & H0).
    destruct (H0 m) as (d & Hd & En & Ec).
    exists d. rewrite En, Ec. done.
  - intros (d & Hd & Hn & Hc).
    apply lead_data_of_row_inr in Hd as (_ & _ & _ & Hd).
    destruct (Hd ∅) as (d' & -> & En & Ec).
    apply bool_decide_eq_true. by rewrite En, Ec.
Qed.

(** The three ways an iteration of the loop ends. *)
Lemma process_row_cases m index row b db :
  (valid_row cols row = false ∧
   ∃ e, process_row cols m index row (b, db) = (add_error e b, db) ∧
        ((∃ d, lead_data_of_row cols m row = inr d ∧
               e = MissingRequiredField (index + 2)) ∨
         (∃ x, lead_data_of_row cols m row = inl x ∧
               e = match x with
                   | ValueError cls v => InvalidEnumValue (index + 2) cls v
                   | _ => RowProcessingError (index + 2) x
                   end))) ∨
  (valid_row cols row = true ∧
   ∃ d, lead_data_of_row cols m row = inr d ∧
     ((contact_of cols row ∈ existing_contacts b ∧
       process_row cols m index row (b, db) =
         (add_duplicate (fst (query_lead (contact_of cols row) db)) d b,
          snd (query_lead (contact_of cols row) db))) ∨
      ((contact_of cols row ∉ existing_contacts b) ∧
       process_row cols m index row (b, db) = (add_insert d b, db)))).
Proof.
  unfold process_row.
  destruct (lead_data_of_row cols m row) as [x|d] eqn:Hd.
  - left. split.
    + unfold valid_row. by rewrite (lead_data_of_row_inl _ _ _ _ Hd).
    + destruct x; eexists; (split; [done|]); right; eauto.
  - pose proof (lead_data_of_row_inr _ _ _ Hd) as (Hc & _).
    case_decide as Hempty.
    + left. split.
      * destruct (valid_row cols row) eqn:Hv; [|done].
        apply (valid_row_true m) in Hv as (d' & Hd' & ? & ?).
        rewrite Hd in Hd'. injection Hd' as <-. tauto.
      * eexists. split; [done|]. left. eauto.
    + right. split.
      * apply (valid_row_true m). exists d. tauto.
      * exists d. split; [done|]. rewrite <-Hc.
        case_decide; [left|right]; split; try done.
  Qed.
End Rows.

(** ** The row loop *)

Section Loop.
Context (cols : list string) (m : gmap string nat) (contacts : list string)
  (db : Session) (rs : list (list string)).

Local Abbreviation state := (classified cols m contacts db rs).

Lemma process_rows_app i l1 l2 st :
  process_rows cols m i (l1 ++ l2) st =
  process_rows cols m (i + length l1) l2 (process_rows cols m i l1 st).
Proof using Type.
  revert i st. induction l1 as [|r l1 IH]; intros i st; simpl.
  - by rewrite Nat.add_0_r.
  - rewrite IH. f_equal. lia.
Qed.

Lemma classified_S k row :
  rs !! k = Some row → state (S k) = process_row cols m k row (state k).
Proof using Type.
  intros Hk. unfold classified.
  rewrite (take_S_r _ _ _ Hk), process_rows_app. simpl.
  rewrite length_take_le; [done|].
  apply lookup_lt_Some in Hk. lia.
Qed.

Lemma classified_all k :
  length rs ≤ k →
  state k = process_rows cols m 0 rs (initial_batch contacts, db).
Proof using Type. intros Hk. unfold classified. by rewrite take_ge. Qed.

(** Induction along the loop. *)
Lemma classified_ind (P : nat → Batch * Session → Prop) :
  P 0 (initial_batch contacts, db) →
  (∀ k row b s, rs !! k = Some row → state k = (b, s) → P k (b, s) →
                P (S k) (process_row cols m k row (b, s))) →
  ∀ k, k ≤ length rs → P k (state k).
Proof using Type.
  intros H0 HS. induction k as [|k IH]; intros Hk; [done|].
  destruct (lookup_lt_is_Some_2 rs k) as [row Hrow]; [lia|].
  rewrite (classified_S _ _ Hrow).
  destruct (state k) as [b s] eqn:E. apply HS; [done..|].
  apply IH. lia.
Qed.

Lemma grows_refl b : grows b b.
Proof using Type. by split_and!. Qed.

Lemma grows_trans b1 b2 b3 : grows b1 b2 → grows b2 b3 → grows b1 b3.
Proof using Type.
  intros (?&?&?&?&?) (?&?&?&?&?).
  split_and!; by etrans.
Qed.

Lemma process_row_grows index row b s :
  grows b (process_row cols m index row (b, s)).1.
Proof using Type.
  destruct (process_row_cases cols m index row b s)
    as [(_ & e & -> & _)|(_ & d & _ & [(_ & ->)|(_ & ->)])]; simpl.
  - split_and!; try done. by apply prefix_app_r.
  - unfold grows, add_duplicate; simpl. split_and!; try done; try lia.
    destruct (_ <$> _); [by apply prefix_app_r|done].
  - split_and!; try done; [by apply prefix_app_r|set_solver].
Qed.

Lemma classified_grows k k' :
  k ≤ k' → k' ≤ length rs → grows (state k).1 (state k').1.
Proof using Type.
  intros Hkk' Hk'. induction Hkk' as [|k' Hkk' IH]; [apply grows_refl|].
  destruct (lookup_lt_is_Some_2 rs k') as [row Hrow]; [lia|].
  eapply grows_trans; [apply IH; lia|].
  rewrite (classified_S _ _ Hrow).
  destruct (state k') as [b s]. apply process_row_grows.
Qed.
End Loop.

(** ** The invariant of the row loop *)

Section LoopInvariant.
Context (cols : list string) (m : gmap string nat) (db : Session)
  (rs : list (list string)).

Local Abbreviation contacts := (Lead.contact_information <$> leads (pending db)).
Local Abbreviation state := (classified cols m contacts db rs).

Lemma query_lead_Some c s l :
  fst (query_lead c s) = Some l →
  l ∈ leads (pending s) ∧ Lead.contact_information l = c.
Proof using Type.
  unfold query_lead; simpl.
  destruct (list_find _ _) as [[i l']|] eqn:Hf; [|done].
  intros [= <-]. apply list_find_Some in Hf as (Hl & Hc & _).
  split; [by eapply list_elem_of_lookup_2|done].
Qed.

Lemma query_lead_None c s :
  fst (query_lead c s) = None ↔
  c ∉ Lead.contact_information <$> leads (pending s).
Proof using Type.
  unfold query_lead; simpl. rewrite fmap_None, list_find_None, Forall_forall.
  rewrite list_elem_of_fmap. split.
  - intros H (l & -> & Hl). by apply (H l).
  - intros H l Hl Hc. apply H. eauto.
Qed.

Lemma query_lead_session c s :
  pending (snd (query_lead c s)) = pending s ∧
  stored (snd (query_lead c s)) = stored s.
Proof using Type. done. Qed.

Lemma loop_inv_init : loop_inv cols m db rs 0 (initial_batch contacts, db).
Proof using Type.
  split; simpl; try done.
  - intros c. rewrite elem_of_list_to_set.
    split; [by left|]. by intros [?|?%elem_of_nil].
  - intros d Hd. by apply elem_of_nil in Hd.
  - constructor.
  - intros i d Hd. by apply elem_of_nil in Hd.
  - lia.
Qed.

Lemma loop_inv_step k row b s :
  rs !! k = Some row →
  loop_inv cols m db rs k (b, s) →
  loop_inv cols m db rs (S k) (process_row cols m k row (b, s)).
Proof using Type.
  intros Hrow [Hp Hs Hknown Hins Hnd Hupd Hseen].
  simpl in Hp, Hs, Hknown, Hins, Hnd, Hupd, Hseen.
  assert (Hlt : ∀ j row', j < S k → rs !! j = Some row' →
                valid_row cols row' = true → j < k ∨ row' = row).
  { intros j row' Hj Hj' _. destruct (decide (j = k)) as [->|]; [|left; lia].
    right. congruence. }
  destruct (process_row_cases cols m k row b s)
    as [(Hv & e & -> & _)|(Hv & d & Hd & [(Hc & ->)|(Hc & ->)])].
  - split; simpl; try done.
    + intros d' Hd'. destruct (Hins d' Hd') as (? & j & r & ? & ?).
      split; [done|]. exists j, r. split; [lia|done].
    + intros j row' Hj Hj' Hv'.
      destruct (Hlt j row' Hj Hj' Hv') as [?| ->]; [eauto|congruence].
  - destruct (fst (query_lead (contact_of cols row) s)) as [l|] eqn:Hq.
    all: split; simpl; try done.
    all: try (intros d' Hd'; destruct (Hins d' Hd') as (? & j & r & ? & ?);
              split; [done|]; exists j, r; split; [lia|done]).
    all: try (intros j row' Hj Hj' Hv';
              destruct (Hlt j row' Hj Hj' Hv') as [?| ->]; [eauto|done]).
    + intros i d'.
      rewrite elem_of_app, list_elem_of_singleton.
      intros [?|[= -> ->]]; [by eauto|].
      apply (query_lead_Some _ s) in Hq as [Hl Hlc]. rewrite Hp in Hl.
      exists l. split_and!; try done.
      rewrite Hlc. symmetry. by apply (lead_data_of_row_inr cols m row).
  - pose proof (lead_data_of_row_inr cols m row d Hd) as (Hdc & _).
    rewrite <-Hdc in Hc.
    assert ((contact_information d ∉ contacts) ∧
            (contact_information d ∉ contact_information <$> leads_to_insert b))
      as [Hc1 Hc2] by (rewrite Hknown in Hc; tauto).
    split; simpl; try done.
    + intros c. rewrite elem_of_union, elem_of_singleton, Hknown.
      rewrite fmap_app, elem_of_app; simpl. rewrite list_elem_of_singleton.
      tauto.
    + intros d'. rewrite elem_of_app, list_elem_of_singleton.
      intros [Hd'| ->].
      * destruct (Hins d' Hd') as (? & j & r & ? & ?).
        split; [done|]. exists j, r. split; [lia|done].
      * split; [done|]. exists k, row. split; [lia|done].
    + rewrite fmap_app. apply NoDup_app. split; [done|]. split.
      * intros c Hc' [->|[]%elem_of_nil]%elem_of_cons. done.
      * apply NoDup_singleton.
    + intros j row' Hj Hj' Hv'. rewrite elem_of_union, elem_of_singleton.
      destruct (Hlt j row' Hj Hj' Hv') as [?| ->]; [eauto|]. by left.
Qed.

Lemma classified_inv k : k ≤ length rs → loop_inv cols m db rs k (state k).
Proof using Type.
  apply (classified_ind cols m contacts db rs (loop_inv cols m db rs)).
  - apply loop_inv_init.
  - intros ? ? ? ? ? _. by apply loop_inv_step.
Qed.
End LoopInvariant.

(** ** The body of the outer try *)

Section Classify.
Implicit Types (df : DataFrame) (db : Session).

Lemma resolve_salesperson_keeps acc n :
  leads (pending (resolve_salesperson acc n).2) = leads (pending acc.2) ∧
  stored (resolve_salesperson acc n).2 = stored acc.2.
Proof.
  destruct acc as [m db]. unfold resolve_salesperson.
  case_decide; [done|]. simpl. by case_match.
Qed.

Lemma resolve_salespersons_keeps names db :
  leads (pending (resolve_salespersons names db).2) = leads (pending db) ∧
  stored (resolve_salespersons names db).2 = stored db.
Proof.
  unfold resolve_salespersons.
  change db with ((∅ : gmap string nat, db).2) at 2 4.
  generalize (∅ : gmap string nat, db). clear db.
  induction names as [|n names IH]; intros acc; simpl; [done|].
  destruct (IH (resolve_salesperson acc n)) as [-> ->].
  apply resolve_salesperson_keeps.
Qed.

Lemma required_columns_present df :
  Forall (λ col, col ∈ columns df) required_columns →
  "Assigned Salesperson" ∈ columns df.
Proof.
  rewrite Forall_forall. intros H. apply H.
  unfold required_columns. set_solver.
Qed.

(** With its columns in place the frame is classified row by row. *)
Lemma classify_import_state df db :
  Forall (λ col, col ∈ columns df) required_columns →
  classify df db =
    inr (length (rows df),
         (import_state df db (length (rows df))).1,
         (import_state df db (length (rows df))).2).
Proof.
  intros Hcols. unfold classify, import_state, salespersons_of.
  rewrite bool_decide_eq_true_2 by done. simpl.
  destruct (df_get_present df _ (required_columns_present df Hcols))
    as (names & -> & _).
  destruct (resolve_salespersons _ _) as [m db1].
  destruct (query_contacts db1) as [contacts db2].
  rewrite classified_all by done.
  by destruct (process_rows _ _ _ _ _).
Qed.

Lemma classify_missing df db :
  ¬ Forall (λ col, col ∈ columns df) required_columns →
  classify df db =
    inl (400, "Error processing CSV file: 400: Missing required columns in CSV: "
              +:+ join ", " (filter (λ col, col ∉ columns df) required_columns)).
Proof.
  intros Hcols. unfold classify.
  by rewrite bool_decide_eq_false_2 by done.
Qed.

(** The session at any point of the loop still holds the leads and the
    stored state of the session of the request. *)
Lemma import_state_session df db k :
  k ≤ length (rows df) →
  leads (pending (import_state df db k).2) = leads (pending db) ∧
  stored (import_state df db k).2 = stored db.
Proof.
  intros Hk. unfold import_state.
  pose proof (resolve_salespersons_keeps (unique (salespersons_of df)) db)
    as [Hl Hs].
  destruct (resolve_salespersons _ _) as [m db1]. simpl in Hl, Hs.
  unfold query_contacts.
  pose proof (classified_inv (columns df) m (log QueryContacts db1) (rows df)
                k Hk) as [Hp Hst _ _ _ _ _].
  simpl in Hp, Hst. rewrite Hp, Hst. simpl. by rewrite Hl, Hs.
Qed.
End Classify.

(** ** The transaction *)

Section Transaction.
Context (F : Faults).
Implicit Types (db : Session) (us : list (nat * LeadData)).

Lemma update_leads_outcome k us db :
  match update_leads F k us db with
  | inl (e, db') =>
      stored db' = stored db ∧
      ∃ j, j < length us ∧ update_raises F (k + j) = Some e
  | inr (_, db') =>
      stored db' = stored db ∧
      ∀ j, j < length us → update_raises F (k + j) = None
  end.
Proof using Type.
  revert k db. induction us as [|[i d] us IH]; intros k db; simpl.
  - split; [done|]. intros j Hj. lia.
  - unfold mbind, Tx_bind, call.
    destruct (update_raises F k) as [e|] eqn:Hk.
    + split; [done|]. exists 0. rewrite Nat.add_0_r. split; [lia|done].
    + specialize (IH (S k) (update_lead i d db)).
      destruct (update_leads F (S k) us _) as [[e db']|[[] db']].
      * destruct IH as [-> (j & Hj & Hr)]. split; [done|].
        exists (S j). split; [lia|]. by rewrite Nat.add_succ_r.
      * destruct IH as [-> Hn]. split; [done|].
        intros [|j] Hj; [by rewrite Nat.add_0_r|].
        rewrite Nat.add_succ_r. apply Hn. lia.
Qed.

(** What the transaction leaves behind: after an exception the stored state
    is the one it found, and one of the calls it reached raised; after a
    commit the counts are the lengths of the two lists and no call raised. *)
Lemma transaction_outcome ins us db :
  match transaction F ins us db with
  | inl (e, db') =>
      stored db' = stored db ∧
      ((ins ≠ [] ∧ bulk_insert_raises F = Some e) ∨
       (∃ k, k < length us ∧ update_raises F k = Some e) ∨
       commit_raises F = Some e)
  | inr ((rows_imported, rows_updated), db') =>
      rows_imported = length ins ∧ rows_updated = length us ∧
      stored db' = pending db' ∧
      (ins ≠ [] → bulk_insert_raises F = None) ∧
      (∀ k, k < length us → update_raises F k = None) ∧
      commit_raises F = None
  end.
Proof using Type.
  unfold transaction, mbind, Tx_bind, mret, Tx_ret, call.
  assert (Hus : us = [] → ∀ k, k < length us → update_raises F k = None).
  { intros -> k Hk. simpl in Hk. lia. }
  pose proof (update_leads_outcome 0 us db) as H1.
  pose proof (update_leads_outcome 0 us (bulk_insert_mappings ins db)) as H2.
  destruct (decide (ins = [])) as [->|Hins];
    [clear H2|clear H1; destruct (bulk_insert_raises F) as [e|] eqn:Hb;
              [by eauto|]].
  - destruct (decide (us = [])) as [Hnil|_].
    + destruct (commit_raises F) as [e'|] eqn:Hc; simpl; [by eauto 6|].
      split_and!; auto; try done; by rewrite Hnil.
    + destruct (update_leads F 0 us db) as [[e' db']|[[] db']].
      * destruct H1 as [-> H1]. by eauto 6.
      * destruct H1 as [Hst H1].
        destruct (commit_raises F) as [e'|] eqn:Hc; simpl; [by eauto 6|].
        by split_and!.
  - destruct (decide (us = [])) as [Hnil|_].
    + destruct (commit_raises F) as [e'|] eqn:Hc; simpl; [by eauto 6|].
      split_and!; auto; try done; by rewrite Hnil.
    + destruct (update_leads F 0 us _) as [[e' db']|[[] db']].
      * destruct H2 as [-> H2]. by eauto 6.
      * destruct H2 as [Hst H2].
        destruct (commit_raises F) as [e'|] eqn:Hc; simpl; [by eauto 6|].
        by split_and!.
Qed.

Lemma transaction_raises b db :
  write_raises F b ↔
  ∃ e db', transaction F (leads_to_insert b) (leads_to_update b) db
           = inl (e, db').
Proof using Type.
  pose proof (transaction_outcome (leads_to_insert b) (leads_to_update b) db)
    as H.
  destruct (transaction F _ _ db) as [[e db']|[[i u] db']]; split.
  - eauto.
  - intros _. destruct H as [_ [[? ?]|[(k & ? & ?)|?]]].
    + left. eauto.
    + right; left. exists k. eauto.
    + right; right. eauto.
  - destruct H as (_ & _ & _ & Hb & Hu & Hc).
    intros [[Hi [e He]]|[(k & Hk & [e He])|[e He]]].
    + rewrite (Hb Hi) in He. done.
    + rewrite (Hu k Hk) in He. done.
    + rewrite Hc in He. done.
  - intros (? & ? & [=]).
Qed.
End Transaction.

(** ** Frames under an index of the file *)

Section Labelled.
Context (cols : list string) (m : gmap string nat).

Lemma sorted_into_add_error e e0 b b0 :
  sorted_into b = sorted_into b0 →
  sorted_into (add_error e b) = sorted_into (add_error e0 b0).
Proof using Type.
  unfold sorted_into. intros [= Hi Hu He Hd Hc]. simpl.
  by rewrite Hi, Hu, Hd, Hc, !length_app, He.
Qed.

(** An iteration under a label does what the iteration under the default
    index does, the number of the row apart, unless the row is in error and
    its label is no number: then it raises. *)
Lemma labelled_row_sim index i row b b0 s :
  sorted_into b = sorted_into b0 →
  match process_labelled_row cols m index row (b, s) with
  | inr st' =>
      numbered index || valid_row cols row = true ∧
      st'.2 = (process_row cols m i row (b0, s)).2 ∧
      stored st'.2 = stored s ∧ pending st'.2 = pending s ∧
      sorted_into st'.1 = sorted_into (process_row cols m i row (b0, s)).1
  | inl _ => numbered index = false ∧ valid_row cols row = false
  end.
Proof using Type.
  intros Hb. unfold process_labelled_row, process_row, numbered.
  destruct (lead_data_of_row cols m row) as [x|d] eqn:Hd.
  - assert (valid_row cols row = false) as Hv.
    { unfold valid_row. by rewrite (lead_data_of_row_inl _ _ _ _ _ Hd). }
    destruct x, (index_plus_2 index); simpl; split_and!; try done.
    all: by apply sorted_into_add_error.
  - case_decide as Hempty.
    + assert (valid_row cols row = false) as Hv.
      { destruct (valid_row cols row) eqn:Hv; [|done].
        apply (valid_row_true cols m) in Hv as (d' & Hd' & ? & ?).
        rewrite Hd in Hd'. injection Hd' as <-. tauto. }
      destruct (index_plus_2 index); simpl; split_and!; try done.
      by apply sorted_into_add_error.
    + assert (valid_row cols row = true) as Hv.
      { apply (valid_row_true cols m). exists d. tauto. }
      rewrite Hv, orb_true_r.
      unfold sorted_into in Hb. injection Hb as Hi Hu He Hn Hc.
      rewrite Hc.
      case_decide; simpl; split_and!; try done.
      * unfold sorted_into, add_duplicate. simpl.
        destruct (_ <$> _); by rewrite Hi, Hu, He, Hn, Hc.
      * unfold sorted_into, add_insert. simpl. by rewrite Hi, Hu, He, Hn, Hc.
Qed.

Lemma labelled_rows_sim rs i b b0 s :
  sorted_into b = sorted_into b0 →
  match process_labelled_rows cols m rs (b, s) with
  | inr st' =>
      loop_completes cols rs = true ∧
      st'.2 = (process_rows cols m i rs.*2 (b0, s)).2 ∧
      stored st'.2 = stored s ∧ pending st'.2 = pending s ∧
      sorted_into st'.1 = sorted_into (process_rows cols m i rs.*2 (b0, s)).1
  | inl (_, s') =>
      loop_completes cols rs = false ∧
      stored s' = stored s ∧ pending s' = pending s
  end.
Proof using Type.
  revert i b b0 s. induction rs as [|[index row] rs IH]; intros i b b0 s Hb.
  { done. }
  change (process_labelled_rows cols m ((index, row) :: rs) (b, s))
    with (match process_labelled_row cols m index row (b, s) with
          | inl e => inl (e, s)
          | inr st' => process_labelled_rows cols m rs st'
          end).
  change (loop_completes cols ((index, row) :: rs))
    with ((numbered index || valid_row cols row) && loop_completes cols rs).
  change (process_rows cols m i ((index, row) :: rs).*2 (b0, s))
    with (process_rows cols m (S i) rs.*2 (process_row cols m i row (b0, s))).
  pose proof (labelled_row_sim index i row b b0 s Hb) as Hrow.
  destruct (process_labelled_row cols m index row (b, s)) as [e|[b' s']].
  { destruct Hrow as [-> ->]. done. }
  destruct Hrow as (-> & Hs & Hst & Hpe & Hb').
  destruct (process_row cols m i row (b0, s)) as [b0' s0'].
  cbn [fst snd] in Hs, Hst, Hpe, Hb'. subst s0'.
  specialize (IH (S i) b' b0' s' Hb').
  destruct (process_labelled_rows cols m rs (b', s')) as [[e s'']|st'].
  - destruct IH as (-> & -> & ->). done.
  - destruct IH as (-> & -> & -> & -> & ->). done.
Qed.
End Labelled.

(** The body of the outer [try] on a labelled frame with its columns. *)
Lemma classify_labelled_outcome lf db :
  Forall (λ col, col ∈ labelled_columns lf) required_columns →
  let df := unlabelled lf in
  let n := length (rows df) in
  match classify_labelled lf db with
  | inr (k, b, s) =>
      loop_completes (labelled_columns lf) (labelled_rows lf) = true ∧
      k = n ∧ s = (import_state df db n).2 ∧
      sorted_into b = sorted_into (import_state df db n).1
  | inl (status_code, _, s) =>
      loop_completes (labelled_columns lf) (labelled_rows lf) = false ∧
      status_code = 400 ∧ stored s = stored db ∧
      leads (pending s) = leads (pending db)
  end.
Proof.
  intros Hcols df n. unfold classify_labelled, import_state, salespersons_of.
  fold df. rewrite bool_decide_eq_true_2 by done. simpl.
  destruct (df_get_present df _ (required_columns_present df Hcols))
    as (names & -> & _).
  pose proof (resolve_salespersons_keeps (unique names) db) as [Hpe Hst].
  destruct (resolve_salespersons _ _) as [m db1]. simpl in Hpe, Hst.
  unfold query_contacts. subst n. rewrite classified_all by done.
  pose proof (labelled_rows_sim (labelled_columns lf) m (labelled_rows lf) 0
                (initial_batch (Lead.contact_information <$> leads (pending db1)))
                (initial_batch (Lead.contact_information <$> leads (pending db1)))
                (log QueryContacts db1) eq_refl) as Hsim.
  destruct (process_labelled_rows _ _ _ _) as [[e s]|[b s]].
  - destruct Hsim as (-> & Hs & Hp). simpl in Hs, Hp. by rewrite Hs, Hp.
  - destruct Hsim as (-> & Hs & _ & _ & Hb). simpl in Hs, Hb.
    unfold df, unlabelled. simpl. rewrite length_fmap. by split_and!.
Qed.

Lemma classify_labelled_missing lf db :
  ¬ Forall (λ col, col ∈ labelled_columns lf) required_columns →
  ∃ detail, classify_labelled lf db = inl (400, detail, db).
Proof.
  intros Hcols. unfold classify_labelled. simpl.
  rewrite bool_decide_eq_false_2 by done. simpl. eauto.
Qed.

(** ** The endpoint *)

Lemma write_batch_returns F filename n b s :
  ∃ r db', write_batch F filename n b s = (Returns r, db') ∧
           LoadResult.rows_processed r = n.
Proof.
  unfold write_batch.
  destruct (transaction F _ _ _) as [[e db']|[[i u] db']]; eauto.
Qed.

(** What an upload that gets a result went through. *)
Lemma load_data_file_returns F filename csv db r db' :
  load_data_file F filename csv db = (Returns r, db') →
  endswith filename ".csv" = true ∧
  len_df csv = Some (LoadResult.rows_processed r) ∧
  (∃ cols, columns_of csv = Some cols ∧
           Forall (λ col, col ∈ cols) required_columns) ∧
  (∀ lf, csv = IndexedFrame lf →
         loop_completes (labelled_columns lf) (labelled_rows lf) = true).
Proof.
  unfold load_data_file.
  destruct (endswith filename ".csv"); [|done]. simpl.
  destruct csv as [e| |e|df|lf]; try done.
  - destruct (decide (Forall (λ col, col ∈ columns df) required_columns))
      as [Hcols|Hn]; [|by rewrite (classify_missing df db Hn)].
    rewrite (classify_import_state df db Hcols).
    intros H. split_and!; [done| |by eauto|done].
    by destruct (transaction F _ _ _) as [[e s]|[[i u] s]];
      injection H as <- _.
  - destruct (decide (Forall (λ col, col ∈ labelled_columns lf) required_columns))
      as [Hcols|Hn].
    + pose proof (classify_labelled_outcome lf db Hcols) as Hout.
      destruct (classify_labelled lf db) as [[[c d] s]|[[k b] s]]; [done|].
      destruct Hout as (Hloop & -> & _). intros H.
      destruct (write_batch_returns F filename
                  (length (rows (unlabelled lf))) b s) as (r' & s' & Hw & Hr).
      rewrite Hw in H. injection H as <- _.
      split_and!; [done| |by eauto|by intros ? [= <-]].
      simpl. rewrite Hr. simpl. by rewrite length_fmap.
    + by destruct (classify_labelled_missing lf db Hn) as [detail ->].
Qed.

(** An upload that gets no result leaves the committed store and the leads
    of the session as they were; the HTTP errors have status 400. *)
Lemma load_data_file_refused F filename csv db response db' :
  load_data_file F filename csv db = (response, db') →
  (∀ r, response ≠ Returns r) →
  stored db' = stored db ∧ leads (pending db') = leads (pending db) ∧
  match response with HTTPException c _ => c = 400 | _ => True end.
Proof.
  unfold load_data_file.
  destruct (endswith filename ".csv"); simpl; [|by intros [= <- <-]].
  destruct csv as [e| |e|df|lf]; try by intros [= <- <-].
  - destruct (decide (Forall (λ col, col ∈ columns df) required_columns))
      as [Hcols|Hn]; [|by rewrite (classify_missing df db Hn); intros [= <- <-]].
    rewrite (classify_import_state df db Hcols).
    destruct (transaction F _ _ _) as [[e s]|[[i u] s]];
      intros [= <- _] H; by destruct (H _ eq_refl).
  - destruct (decide (Forall (λ col, col ∈ labelled_columns lf) required_columns))
      as [Hcols|Hn].
    + pose proof (classify_labelled_outcome lf db Hcols) as Hout.
      destruct (classify_labelled lf db) as [[[c d] s]|[[k b] s]].
      * destruct Hout as (_ & -> & ? & ?). by intros [= <- <-].
      * destruct (write_batch_returns F filename k b s) as (r & s' & -> & _).
        intros [= <- _] H. by destruct (H _ eq_refl).
    + destruct (classify_labelled_missing lf db Hn) as [detail ->].
      by intros [= <- <-].
Qed.

(** C4: every result the endpoint returns has for [rows_processed] the
    number of data rows of the frame, whatever happened to the rows and to
    the transaction.  A frame under the default index gets a result as soon
    as the name of the upload and the columns are right, however many rows
    are in error; a frame under an index of the file gets one exactly when
    none of its rows in error comes under a label that is no number. *)
Theorem rows_processed_is_row_count F filename db :
  (∀ csv r db', load_data_file F filename csv db = (Returns r, db') →
     len_df csv = Some (LoadResult.rows_processed r)) ∧
  (endswith filename ".csv" = true →
   (∀ df, Forall (λ col, col ∈ columns df) required_columns →
      ∃ r db', load_data_file F filename (Frame df) db = (Returns r, db') ∧
               LoadResult.rows_processed r = length (rows df)) ∧
   (∀ lf, Forall (λ col, col ∈ labelled_columns lf) required_columns →
      ((∃ r db', load_data_file F filename (IndexedFrame lf) db
                 = (Returns r, db')) ↔
       loop_completes (labelled_columns lf) (labelled_rows lf) = true))).
Proof.
  split.
  { intros csv r db' H. by apply load_data_file_returns in H as (_ & ? & _). }
  intros Hcsv. split.
  - intros df Hcols. unfold load_data_file.
    rewrite Hcsv, (classify_import_state df db Hcols). simpl.
    destruct (transaction F _ _ _) as [[e db']|[[i u] db']]; eauto.
  - intros lf Hcols. split.
    + intros (r & db' & H).
      apply load_data_file_returns in H as (_ & _ & _ & H). by apply H.
    + intros Hloop. unfold load_data_file. rewrite Hcsv. simpl.
      pose proof (classify_labelled_outcome lf db Hcols) as Hout.
      destruct (classify_labelled lf db) as [[[c d] s]|[[k b] s]].
      * destruct Hout as [Hout _]. congruence.
      * destruct (write_batch_returns F filename k b s) as (r & s' & -> & _).
        eauto.
Qed.

Lemma rows_processed_is_row_count_witness :
  (∃ r db',
     load_data_file update_fails "leads.csv" (Frame sample_frame) sample_session
       = (Returns r, db') ∧
     LoadResult.rows_processed r = 4) ∧
  (∃ r db',
     load_data_file no_faults "leads.csv" (IndexedFrame numbered_sample)
       sample_session = (Returns r, db')) ∧
  ¬ (∃ r db',
       load_data_file no_faults "leads.csv" (IndexedFrame labelled_sample)
         sample_session = (Returns r, db')).
Proof.
  split_and!.
  - apply (rows_processed_is_row_count update_fails "leads.csv" sample_session).
    + reflexivity.
    + apply (bool_decide_eq_true_1 _). vm_compute. reflexivity.
  - apply (rows_processed_is_row_count no_faults "leads.csv" sample_session).
    + reflexivity.
    + apply (bool_decide_eq_true_1 _). vm_compute. reflexivity.
    + reflexivity.
  - intros H.
    apply (rows_processed_is_row_count no_faults "leads.csv" sample_session)
      in H.
    + discriminate H.
    + reflexivity.
    + apply (bool_decide_eq_true_1 _). vm_compute. reflexivity.
Defined.

(** The rows of [labelled_sample] come under strings, and its second row is
    in error: the handler of the invalid enum value raises on [index + 2],
    and the request ends with status 400 after the queries of the first
    row, without a result. *)
Lemma labelled_sample_aborts :
  ∃ db',
    load_data_file no_faults "leads.csv" (IndexedFrame labelled_sample)
      sample_session
    = (HTTPException 400
         ("Error processing CSV file: can only concatenate str (not "
          +:+ double_quote +:+ "int" +:+ double_quote +:+ ") to str"), db') ∧
    stored db' = sample_store ∧
    calls db' = [QuerySalesPerson "Joe"; AddSalesPerson "Joe"; QueryContacts].
Proof. eexists. split_and!; reflexivity. Qed.

(** C9: an upload that lacks required columns is answered with status 400
    and a detail that lists the missing columns, in the order of the list of
    required columns; the session is left as it was, without any call. *)
Theorem missing_columns_rejected F filename df db :
  endswith filename ".csv" = true →
  ¬ Forall (λ col, col ∈ columns df) required_columns →
  let missing := filter (λ col, col ∉ columns df) required_columns in
  missing ≠ [] ∧
  (∀ col, col ∈ missing ↔ col ∈ required_columns ∧ col ∉ columns df) ∧
  load_data_file F filename (Frame df) db =
    (HTTPException 400
       ("Error processing CSV file: 400: Missing required columns in CSV: "
        +:+ join ", " missing), db).
Proof.
  intros Hcsv Hcols missing. split_and!.
  - intros Hnil. apply Hcols. apply Forall_forall. intros col Hcol.
    destruct (decide (col ∈ columns df)) as [|Hn]; [done|].
    assert (col ∈ missing) as Hm by (by apply list_elem_of_filter).
    rewrite Hnil in Hm. by apply elem_of_nil in Hm.
  - intros col. unfold missing. rewrite list_elem_of_filter. tauto.
  - unfold load_data_file. by rewrite Hcsv, (classify_missing df db Hcols).
Qed.

Lemma missing_columns_rejected_witness :
  load_data_file no_faults "leads.csv" (Frame short_frame) sample_session =
    (HTTPException 400
       "Error processing CSV file: 400: Missing required columns in CSV: Status, Assigned Salesperson",
     sample_session).
Proof.
  apply (missing_columns_rejected no_faults "leads.csv" short_frame
           sample_session).
  - reflexivity.
  - apply (bool_decide_eq_false_1 _). vm_compute. reflexivity.
Defined.

(** C2: when a write call of the transaction raises, the endpoint still
    returns a result; it reports no row imported and none updated, its errors
    are the row errors of the classification followed by one entry for the
    database failure, and the session is rolled back to the stored state the
    request found. *)
Theorem failed_transaction_reports_nothing F filename df db :
  endswith filename ".csv" = true →
  Forall (λ col, col ∈ columns df) required_columns →
  let b := (import_state df db (length (rows df))).1 in
  write_raises F b →
  ∃ r db' e,
    load_data_file F filename (Frame df) db = (Returns r, db') ∧
    LoadResult.rows_imported r = 0 ∧
    LoadResult.rows_updated r = 0 ∧
    LoadResult.errors r = errors b ++ [DatabaseError e] ∧
    pending db' = stored db ∧ stored db' = stored db ∧
    last (calls db') = Some Rollback.
Proof.
  intros Hcsv Hcols b Hraise. unfold load_data_file.
  rewrite Hcsv, (classify_import_state df db Hcols). simpl. fold b.
  set (db1 := (import_state df db (length (rows df))).2).
  destruct (proj1 (transaction_raises F b db1) Hraise) as (e & db2 & Htx).
  pose proof (transaction_outcome F (leads_to_insert b) (leads_to_update b) db1)
    as Hout.
  rewrite Htx in *. destruct Hout as [Hst _].
  destruct (import_state_session df db (length (rows df))) as [_ Hs]; [done|].
  fold db1 in Hs.
  exists (LoadResult.mk filename (length (rows df)) 0 0 (duplicates_found b)
            (errors b ++ [DatabaseError e])), (rollback db2), e.
  simpl. rewrite Hst, Hs. split_and!; try done. apply last_snoc.
Qed.

Lemma failed_transaction_reports_nothing_witness :
  ∃ r db' e,
    load_data_file update_fails "leads.csv" (Frame sample_frame) sample_session
      = (Returns r, db') ∧
    LoadResult.rows_imported r = 0 ∧
    LoadResult.rows_updated r = 0 ∧
    LoadResult.errors r = [] ++ [DatabaseError e] ∧
    pending db' = sample_store ∧ stored db' = sample_store ∧
    last (calls db') = Some Rollback.
Proof.
  apply (failed_transaction_reports_nothing update_fails "leads.csv"
           sample_frame sample_session).
  - reflexivity.
  - apply (bool_decide_eq_true_1 _). vm_compute. reflexivity.
  - right; left. exists 0. split; [vm_compute; lia|by eexists].
Defined.

(** ** Required fields *)

Lemma cell_row_get cols row c :
  c ∈ cols → row_get cols row c = inr (cell cols row c).
Proof.
  intros [v Hv]%(row_get_present cols row). unfold cell. by rewrite Hv.
Qed.

Lemma lead_data_of_row_valid_enums cols m row s i t :
  Forall (λ col, col ∈ cols) required_columns →
  Source_of (cell cols row "Source") = inr s →
  Interest_of (cell cols row "Interest Level") = inr i →
  Status_of (cell cols row "Status") = inr t →
  lead_data_of_row cols m row =
    inr {| name := cell cols row "Lead Name";
           contact_information := cell cols row "Contact Information";
           source := s; interest := i; status := t;
           assigned_salesperson_name := cell cols row "Assigned Salesperson";
           salesperson_id :=
             salesperson_id_of m (cell cols row "Assigned Salesperson") |}.
Proof.
  rewrite Forall_forall. intros Hcols Hs Hi Ht. unfold lead_data_of_row.
  rewrite !cell_row_get by (apply Hcols; unfold required_columns; set_solver).
  simpl. rewrite Hs. simpl. rewrite Hi. simpl. rewrite Ht. done.
Qed.




(** ** Occurrences of a contact along the loop *)

Section Occurrences.
Context (cols : list string) (m : gmap string nat) (db : Session)
  (rs : list (list string)).

Local Abbreviation contacts := (Lead.contact_information <$> leads (pending db)).
Local Abbreviation state := (classified cols m contacts db rs).

(** A contact is known after [k] rows when the store holds it or a valid row
    among the first [k] carries it. *)
Lemma known_contact k c :
  k ≤ length rs →
  c ∈ existing_contacts (state k).1 ↔
  c ∈ contacts ∨
  ∃ j row, j < k ∧ rs !! j = Some row ∧ valid_row cols row = true ∧
           contact_of cols row = c.
Proof using Type.
  intros Hk. destruct (classified_inv cols m db rs k Hk)
    as [_ _ Hknown Hins _ _ Hseen].
  rewrite Hknown. split.
  - intros [?|(d & -> & Hd)%list_elem_of_fmap]; [by left|right].
    destruct (Hins d Hd) as (_ & j & row & ? & ? & ? & Hrow).
    exists j, row. split_and!; try done.
    symmetry. by apply (lead_data_of_row_inr cols m row).
  - intros [?|(j & row & ? & ? & ? & <-)]; [by left|].
    apply Hknown. eauto.
Qed.

(** What the loop does on a valid row. *)
Lemma valid_row_step k row :
  rs !! k = Some row → valid_row cols row = true →
  ∃ d b s,
    state k = (b, s) ∧ lead_data_of_row cols m row = inr d ∧
    pending s = pending db ∧
    ((contact_of cols row ∈ existing_contacts b ∧
      state (S k) =
        (add_duplicate (fst (query_lead (contact_of cols row) s)) d b,
         snd (query_lead (contact_of cols row) s))) ∨
     ((contact_of cols row ∉ existing_contacts b) ∧
      state (S k) = (add_insert d b, s))).
Proof using Type.
  intros Hrow Hv. rewrite (classified_S _ _ _ _ _ _ _ Hrow).
  assert (k ≤ length rs) as Hk by (apply lookup_lt_Some in Hrow; lia).
  destruct (classified_inv cols m db rs k Hk) as [Hp _ _ _ _ _ _].
  destruct (state k) as [b s] eqn:E. simpl in Hp.
  destruct (process_row_cases cols m k row b s)
    as [(Hv' & _)|(_ & d & Hd & H)]; [congruence|].
  exists d, b, s. split_and!; try done.
Qed.

(** A valid row whose contact the store holds: one more duplicate, and an
    update of the first lead of that contact. *)
Lemma persisted_contact_step k row :
  rs !! k = Some row → valid_row cols row = true →
  contact_of cols row ∈ contacts →
  ∃ l d,
    fst (query_lead (contact_of cols row) db) = Some l ∧
    lead_data_of_row cols m row = inr d ∧
    leads_to_update (state (S k)).1 =
      leads_to_update (state k).1 ++ [(Lead.id l, d)] ∧
    leads_to_insert (state (S k)).1 = leads_to_insert (state k).1 ∧
    errors (state (S k)).1 = errors (state k).1 ∧
    duplicates_found (state (S k)).1 = S (duplicates_found (state k).1).
Proof using Type.
  intros Hrow Hv Hc.
  assert (k ≤ length rs) as Hk by (apply lookup_lt_Some in Hrow; lia).
  destruct (valid_row_step k row Hrow Hv)
    as (d & b & s & E & Hd & Hp & [[_ ->]|[Hn _]]).
  - rewrite E. simpl.
    destruct (fst (query_lead (contact_of cols row) db)) as [l|] eqn:Hq.
    + exists l, d. unfold query_lead in *. simpl in *. rewrite Hp, Hq. done.
    + apply query_lead_None in Hq. done.
  - exfalso. apply Hn. replace b with (state k).1 by (by rewrite E).
    apply known_contact; [done|by left].
Qed.

(** A valid row whose contact neither the store nor an earlier valid row
    holds: a new lead. *)
Lemma new_contact_step k row :
  rs !! k = Some row → valid_row cols row = true →
  contact_of cols row ∉ contacts →
  (∀ j rj, j < k → rs !! j = Some rj → valid_row cols rj = true →
           contact_of cols rj ≠ contact_of cols row) →
  ∃ d,
    lead_data_of_row cols m row = inr d ∧
    leads_to_insert (state (S k)).1 = leads_to_insert (state k).1 ++ [d] ∧
    leads_to_update (state (S k)).1 = leads_to_update (state k).1 ∧
    errors (state (S k)).1 = errors (state k).1 ∧
    duplicates_found (state (S k)).1 = duplicates_found (state k).1.
Proof using Type.
  intros Hrow Hv Hc Hfirst.
  assert (k ≤ length rs) as Hk by (apply lookup_lt_Some in Hrow; lia).
  destruct (valid_row_step k row Hrow Hv)
    as (d & b & s & E & Hd & Hp & [[Hin _]|[_ ->]]).
  - exfalso. replace b with (state k).1 in Hin by (by rewrite E).
    apply known_contact in Hin; [|done].
    destruct Hin as [?|(j & rj & ? & ? & ? & ?)]; [done|].
    by apply (Hfirst j rj).
  - rewrite E. exists d. by split_and!.
Qed.

(** A valid row whose contact an earlier valid row holds: one more
    duplicate, and nothing inserted. *)
Lemma repeated_contact_step i k ri row :
  i < k → rs !! i = Some ri → rs !! k = Some row →
  valid_row cols ri = true → valid_row cols row = true →
  contact_of cols ri = contact_of cols row →
  duplicates_found (state (S k)).1 = S (duplicates_found (state k).1) ∧
  leads_to_insert (state (S k)).1 = leads_to_insert (state k).1 ∧
  errors (state (S k)).1 = errors (state k).1 ∧
  (contact_of cols row ∉ contacts →
   leads_to_update (state (S k)).1 = leads_to_update (state k).1).
Proof using Type.
  intros Hik Hi Hrow Hvi Hv Hc.
  assert (k ≤ length rs) as Hk by (apply lookup_lt_Some in Hrow; lia).
  destruct (valid_row_step k row Hrow Hv)
    as (d & b & s & E & Hd & Hp & [[_ ->]|[Hn _]]).
  - rewrite E.
    destruct (fst (query_lead (contact_of cols row) s)) as [l|] eqn:Hq;
      simpl; (split_and!; try done).
    intros Hnc. rewrite <-Hp in Hnc. apply query_lead_None in Hnc.
    congruence.
  - exfalso. apply Hn. replace b with (state k).1 by (by rewrite E).
    apply known_contact; [done|]. right. exists i, ri. done.
Qed.
End Occurrences.

(** ** Counting rows *)

Section Accounting.
Context (cols : list string) (m : gmap string nat) (contacts : list string)
  (db : Session) (rs : list (list string)).

Local Abbreviation state := (classified cols m contacts db rs).

(** Every row ends in exactly one of: the insert list, the error list, the
    count of duplicates. *)
Lemma rows_accounted k :
  k ≤ length rs →
  length (leads_to_insert (state k).1) + length (errors (state k).1)
  + duplicates_found (state k).1 = k.
Proof using Type.
  apply (classified_ind cols m contacts db rs
           (λ k st, length (leads_to_insert st.1) + length (errors st.1)
                    + duplicates_found st.1 = k)); [done|].
  intros k' row b s _ _ IH. simpl in IH.
  destruct (process_row_cases cols m k' row b s)
    as [(_ & e & -> & _)|(_ & d & _ & [(_ & ->)|(_ & ->)])]; simpl.
  - rewrite length_app. simpl. lia.
  - lia.
  - rewrite length_app. simpl. lia.
Qed.

(** The update list grows by at most one entry for each duplicate counted. *)
Lemma updates_within_duplicates k k' :
  k ≤ k' → k' ≤ length rs →
  duplicates_found (state k).1 + length (leads_to_update (state k').1)
  ≤ duplicates_found (state k').1 + length (leads_to_update (state k).1).
Proof using Type.
  intros Hkk' Hk'. induction Hkk' as [|k' Hkk' IH]; [lia|].
  destruct (lookup_lt_is_Some_2 rs k') as [row Hrow]; [lia|].
  specialize (IH ltac:(lia)).
  rewrite (classified_S _ _ _ _ _ _ _ Hrow).
  destruct (state k') as [b s]. simpl in IH.
  destruct (process_row_cases cols m k' row b s)
    as [(_ & e & -> & _)|(_ & d & _ & [(_ & ->)|(_ & ->)])];
    [simpl; lia| |simpl; lia].
  destruct (fst (query_lead _ s)); simpl; [rewrite length_app; simpl|]; lia.
Qed.
End Accounting.

(** ** The loop as the endpoint runs it *)

Lemma import_state_classified df db :
  ∃ db2,
    leads (pending db2) = leads (pending db) ∧
    ∀ k, import_state df db k =
         classified (columns df) (salesperson_map_of df db)
           (Lead.contact_information <$> leads (pending db2)) db2 (rows df) k.
Proof.
  unfold import_state, salesperson_map_of.
  pose proof (resolve_salespersons_keeps (unique (salespersons_of df)) db)
    as [Hl _].
  destruct (resolve_salespersons _ _) as [m db1]. simpl in Hl.
  exists (log QueryContacts db1). split; [done|]. done.
Qed.

(** ** Duplicates within a file *)

(** C8: of two valid rows of a file with the same contact, the earlier being
    the first valid row of that contact: the first is an update of the stored
    lead of that contact when the store holds one, and a new lead otherwise;
    the second adds one to [duplicates_found] and nothing to the insert
    list. *)
Theorem repeated_contact_is_duplicate df db i j ri rj :
  let cols := columns df in
  let batch k := (import_state df db k).1 in
  i < j → rows df !! i = Some ri → rows df !! j = Some rj →
  valid_row cols ri = true → valid_row cols rj = true →
  contact_of cols ri = contact_of cols rj →
  (∀ k rk, k < i → rows df !! k = Some rk → valid_row cols rk = true →
           contact_of cols rk ≠ contact_of cols ri) →
  (if decide (contact_of cols ri
              ∈ Lead.contact_information <$> leads (pending db))
   then ∃ l d,
       l ∈ leads (pending db) ∧
       Lead.contact_information l = contact_of cols ri ∧
       leads_to_update (batch (S i)) = leads_to_update (batch i) ++ [(Lead.id l, d)] ∧
       leads_to_insert (batch (S i)) = leads_to_insert (batch i) ∧
       duplicates_found (batch (S i)) = S (duplicates_found (batch i))
   else ∃ d,
       contact_information d = contact_of cols ri ∧
       leads_to_insert (batch (S i)) = leads_to_insert (batch i) ++ [d] ∧
       leads_to_update (batch (S i)) = leads_to_update (batch i) ∧
       duplicates_found (batch (S i)) = duplicates_found (batch i)) ∧
  duplicates_found (batch (S j)) = S (duplicates_found (batch j)) ∧
  leads_to_insert (batch (S j)) = leads_to_insert (batch j).
Proof.
  intros cols batch Hij Hi Hj Hvi Hvj Hc Hfirst. subst batch. simpl.
  destruct (import_state_classified df db) as (db2 & Hl & E).
  rewrite !E. split.
  - case_decide as Hin; rewrite <-Hl in Hin.
    + destruct (persisted_contact_step cols (salesperson_map_of df db) db2
                  (rows df) i ri Hi Hvi Hin)
        as (l & d & Hq & _ & ? & ? & _ & ?).
      apply query_lead_Some in Hq as [Hq1 Hq2]. rewrite Hl in Hq1.
      by exists l, d.
    + destruct (new_contact_step cols (salesperson_map_of df db) db2 (rows df)
                  i ri Hi Hvi Hin Hfirst) as (d & Hd & ? & ? & _ & ?).
      exists d. split_and!; try done.
      by apply (lead_data_of_row_inr cols (salesperson_map_of df db) ri).
  - destruct (repeated_contact_step cols (salesperson_map_of df db) db2
                (rows df) i j ri rj Hij Hi Hj Hvi Hvj Hc) as (? & ? & _).
    done.
Qed.

Lemma repeated_contact_is_duplicate_witness :
  let batch k := (import_state sample_frame sample_session k).1 in
  (∃ d, contact_information d = "bob@example.com" ∧
        leads_to_insert (batch 1) = leads_to_insert (batch 0) ++ [d] ∧
        leads_to_update (batch 1) = leads_to_update (batch 0) ∧
        duplicates_found (batch 1) = duplicates_found (batch 0)) ∧
  duplicates_found (batch 2) = S (duplicates_found (batch 1)) ∧
  leads_to_insert (batch 2) = leads_to_insert (batch 1).
Proof.
  apply (repeated_contact_is_duplicate sample_frame sample_session 0 1
           ["Bob"; "bob@example.com"; "Website"; "Low"; "New"; "Joe"]
           ["Rob"; "bob@example.com"; "Event"; "High"; "New"; "Joe"]);
    try reflexivity.
  - lia.
  - intros k rk Hk. lia.
Defined.

(** C10: a valid row whose contact the store does not hold and an earlier
    valid row of the file carries adds one to [duplicates_found] and nothing
    to the insert list, the update list and the error list.  The result of
    such an import, when the transaction commits, accounts for fewer rows
    than it processed. *)
Theorem in_file_duplicate_is_dropped df db i j ri rj :
  let cols := columns df in
  let batch k := (import_state df db k).1 in
  i < j → rows df !! i = Some ri → rows df !! j = Some rj →
  valid_row cols ri = true → valid_row cols rj = true →
  contact_of cols ri = contact_of cols rj →
  contact_of cols rj ∉ Lead.contact_information <$> leads (pending db) →
  (duplicates_found (batch (S j)) = S (duplicates_found (batch j)) ∧
   leads_to_insert (batch (S j)) = leads_to_insert (batch j) ∧
   leads_to_update (batch (S j)) = leads_to_update (batch j) ∧
   errors (batch (S j)) = errors (batch j)) ∧
  ∀ filename r db',
    load_data_file no_faults filename (Frame df) db = (Returns r, db') →
    LoadResult.rows_imported r + LoadResult.rows_updated r
    + length (LoadResult.errors r) < LoadResult.rows_processed r.
Proof.
  intros cols batch Hij Hi Hj Hvi Hvj Hc Hnew. subst batch cols. simpl.
  destruct (import_state_classified df db) as (db2 & Hl & E).
  rewrite <-Hl in Hnew.
  destruct (repeated_contact_step (columns df) (salesperson_map_of df db) db2
              (rows df) i j ri rj Hij Hi Hj Hvi Hvj Hc) as (Hd & Hin & He & Hu).
  specialize (Hu Hnew). rewrite !E. split; [done|].
  intros filename r db'. unfold load_data_file.
  destruct (endswith filename ".csv"); [|done]. simpl.
  destruct (decide (Forall (λ col, col ∈ columns df) required_columns))
    as [Hcols|Hcols]; [|by rewrite (classify_missing df db Hcols)].
  rewrite (classify_import_state df db Hcols). rewrite !E.
  set (n := length (rows df)).
  set (b := (classified _ _ _ _ _ n).1).
  pose proof (transaction_outcome no_faults (leads_to_insert b)
                (leads_to_update b)
                (classified (columns df) (salesperson_map_of df db)
                   (Lead.contact_information <$> leads (pending db2)) db2
                   (rows df) n).2) as Hout.
  destruct (transaction _ _ _ _) as [[e s]|[[imp upd] s]].
  { destruct Hout as [_ [[_ [=]]|[(? & _ & [=])|[=]]]]. }
  destruct Hout as (-> & -> & _). intros [= <- _]. simpl.
  assert (j < n) as Hjn by (by apply lookup_lt_Some in Hj).
  pose proof (rows_accounted (columns df) (salesperson_map_of df db)
                (Lead.contact_information <$> leads (pending db2)) db2
                (rows df) n ltac:(done)) as Hacc.
  pose proof (updates_within_duplicates (columns df) (salesperson_map_of df db)
                (Lead.contact_information <$> leads (pending db2)) db2
                (rows df) 0 j ltac:(lia) ltac:(lia)) as H0j.
  pose proof (updates_within_duplicates (columns df) (salesperson_map_of df db)
                (Lead.contact_information <$> leads (pending db2)) db2
                (rows df) (S j) n ltac:(lia) ltac:(done)) as Hjn'.
  rewrite Hd, Hu in Hjn'. simpl in H0j. subst b n. lia.
Qed.

Lemma in_file_duplicate_is_dropped_witness :
  let batch k := (import_state sample_frame sample_session k).1 in
  (duplicates_found (batch 2) = S (duplicates_found (batch 1)) ∧
   leads_to_insert (batch 2) = leads_to_insert (batch 1) ∧
   leads_to_update (batch 2) = leads_to_update (batch 1) ∧
   errors (batch 2) = errors (batch 1)) ∧
  ∀ filename r db',
    load_data_file no_faults filename (Frame sample_frame) sample_session
      = (Returns r, db') →
    LoadResult.rows_imported r + LoadResult.rows_updated r
    + length (LoadResult.errors r) < LoadResult.rows_processed r.
Proof.
  apply (in_file_duplicate_is_dropped sample_frame sample_session 0 1
           ["Bob"; "bob@example.com"; "Website"; "Low"; "New"; "Joe"]
           ["Rob"; "bob@example.com"; "Event"; "High"; "New"; "Joe"]);
    try reflexivity.
  - lia.
  - apply (bool_decide_eq_false_1 _). vm_compute. reflexivity.
Defined.

(** ** Writes and the uniqueness of contacts *)

Section Writes.
Implicit Types (ls : list Lead.t) (ds : list LeadData) (d : LeadData)
  (us : list (nat * LeadData)).

Lemma keys_ids ls : (keys ls).*1 = Lead.id <$> ls.
Proof. unfold keys. by rewrite <-list_fmap_compose. Qed.

Lemma keys_contacts ls : (keys ls).*2 = Lead.contact_information <$> ls.
Proof. unfold keys. by rewrite <-list_fmap_compose. Qed.

Lemma next_id_fresh ls : next_id (Lead.id <$> ls) ∉ Lead.id <$> ls.
Proof.
  intros H%max_list_elem_of_le. unfold next_id in H. lia.
Qed.

Lemma insert_leads_keys ls ds :
  NoDup (Lead.id <$> ls) →
  ls `prefix_of` insert_leads ls ds ∧
  NoDup (Lead.id <$> insert_leads ls ds) ∧
  Lead.contact_information <$> insert_leads ls ds =
    (Lead.contact_information <$> ls) ++ (contact_information <$> ds).
Proof.
  revert ls. induction ds as [|d ds IH]; intros ls Hnd; simpl.
  - by rewrite app_nil_r.
  - destruct (IH (ls ++ [lead_of_data (next_id (Lead.id <$> ls)) d]))
      as (Hp & Hn & Hc).
    { rewrite fmap_app. apply NoDup_app. split_and!; [done| |apply NoDup_singleton].
      intros i Hi [->|[]%elem_of_nil]%elem_of_cons.
      by apply (next_id_fresh ls). }
    split_and!; [|done|].
    + etrans; [|done]. by apply prefix_app_r.
    + rewrite Hc, fmap_app. simpl. by rewrite <-app_assoc.
Qed.

Lemma NoDup_fmap_eq {A B} (f : A → B) (l : list A) x y :
  NoDup (f <$> l) → x ∈ l → y ∈ l → f x = f y → x = y.
Proof.
  induction l as [|a l IH]; simpl; [by intros _ ?%elem_of_nil|].
  rewrite NoDup_cons, !elem_of_cons, list_elem_of_fmap.
  intros [Ha Hl] [->|Hx] [->|Hy] Hf; [done|..|by apply IH].
  - exfalso. apply Ha. eauto.
  - exfalso. apply Ha. eauto.
Qed.

Lemma update_rows_keys i d ls :
  NoDup (Lead.id <$> ls) →
  (i, contact_information d) ∈ keys ls →
  keys (update_rows i d ls) = keys ls.
Proof.
  intros Hnd Hin. unfold keys, update_rows. rewrite <-list_fmap_compose.
  apply list_fmap_ext. intros k l Hl. simpl.
  case_decide as Hi; [|done]. simpl. f_equal; [done|].
  apply list_elem_of_fmap in Hin as (l0 & [= Hi0 Hc0] & Hl0).
  rewrite Hc0. f_equal.
  apply (NoDup_fmap_eq Lead.id ls); [done|done| |congruence].
  by eapply list_elem_of_lookup_2.
Qed.

Lemma update_leads_keys F k us db :
  NoDup (Lead.id <$> leads (pending db)) →
  (∀ i d, (i, d) ∈ us → (i, contact_information d) ∈ keys (leads (pending db))) →
  match update_leads F k us db with
  | inl _ => True
  | inr (_, db') => keys (leads (pending db')) = keys (leads (pending db))
  end.
Proof.
  revert k db. induction us as [|[i d] us IH]; intros k db Hnd Hus; simpl.
  - done.
  - unfold mbind, Tx_bind, call.
    destruct (update_raises F k); [done|].
    assert (keys (leads (pending (update_lead i d db)))
            = keys (leads (pending db))) as Hk.
    { simpl. apply update_rows_keys; [done|]. apply Hus. by left. }
    specialize (IH (S k) (update_lead i d db)).
    destruct (update_leads F (S k) us _) as [|[[] db']]; [done|].
    rewrite IH, Hk; [done|..].
    + by rewrite <-keys_ids, Hk, keys_ids.
    + intros i' d' H'. rewrite Hk. apply Hus. by right.
Qed.

(** A committed transaction leaves the contacts of the store followed by
    those of the inserted rows. *)
Lemma transaction_contacts F ins us db n u db' :
  NoDup (Lead.id <$> leads (pending db)) →
  (∀ i d, (i, d) ∈ us → ∃ l, l ∈ leads (pending db) ∧ Lead.id l = i ∧
                            Lead.contact_information l = contact_information d) →
  transaction F ins us db = inr ((n, u), db') →
  stored db' = pending db' ∧
  Lead.contact_information <$> leads (pending db') =
    (Lead.contact_information <$> leads (pending db))
    ++ (contact_information <$> ins).
Proof.
  intros Hnd Hus.
  destruct (insert_leads_keys (leads (pending db)) ins Hnd) as (Hp & Hn & Hc).
  assert (∀ ls, leads (pending db) `prefix_of` ls →
                ∀ i d, (i, d) ∈ us → (i, contact_information d) ∈ keys ls)
    as Hus'.
  { intros ls Hpre i d Hid. destruct (Hus i d Hid) as (l & Hl & <- & <-).
    apply list_elem_of_fmap. exists l. split; [done|].
    destruct Hpre as [k ->]. apply elem_of_app. by left. }
  unfold transaction, mbind, Tx_bind, mret, Tx_ret, call.
  pose proof (update_leads_keys F 0 us db Hnd (Hus' _ (reflexivity _))) as H1.
  pose proof (update_leads_keys F 0 us (bulk_insert_mappings ins db) Hn
                (Hus' _ Hp)) as H2.
  destruct (decide (ins = [])) as [->|Hins];
    [clear H2|clear H1; destruct (bulk_insert_raises F); [done|]].
  - rewrite app_nil_r.
    destruct (decide (us = [])) as [_|_].
    + destruct (commit_raises F); [done|]. by intros [= _ _ <-].
    + destruct (update_leads F 0 us db) as [[]|[[] s]]; [done|].
      destruct (commit_raises F); [done|]. intros [= _ _ <-]. simpl.
      by rewrite <-!keys_contacts, H1.
  - destruct (decide (us = [])) as [_|_].
    + destruct (commit_raises F); [done|]. by intros [= _ _ <-].
    + destruct (update_leads F 0 us _) as [[]|[[] s]]; [done|].
      destruct (commit_raises F); [done|]. intros [= _ _ <-]. simpl.
      by rewrite <-keys_contacts, H2, keys_contacts.
Qed.
End Writes.

(** ** Contacts the store already holds *)

(** C3: with contacts and ids unique in the store, a valid row whose contact
    is the one of a stored lead ends in the update list under the id of that
    lead and never in the insert list, and whatever the endpoint answers, the
    contacts of the leads stay unique. *)
Theorem persisted_contact_is_update F filename df db i row l :
  let cols := columns df in
  let b := (import_state df db (length (rows df))).1 in
  NoDup (Lead.contact_information <$> leads (pending db)) →
  NoDup (Lead.id <$> leads (pending db)) →
  NoDup (Lead.contact_information <$> leads (stored db)) →
  rows df !! i = Some row → valid_row cols row = true →
  l ∈ leads (pending db) →
  Lead.contact_information l = contact_of cols row →
  (∃ d, lead_data_of_row cols (salesperson_map_of df db) row = inr d ∧
        (Lead.id l, d) ∈ leads_to_update b) ∧
  (∀ d, d ∈ leads_to_insert b →
        contact_information d ≠ contact_of cols row) ∧
  (∀ r db', load_data_file F filename (Frame df) db = (r, db') →
            NoDup (Lead.contact_information <$> leads (stored db')) ∧
            NoDup (Lead.contact_information <$> leads (pending db'))).
Proof.
  intros cols b Hcs Hids Hst Hrow Hv Hl Hlc. subst cols b.
  destruct (import_state_classified df db) as (db2 & Hleads & E).
  set (n := length (rows df)).
  set (m := salesperson_map_of df db) in *.
  assert (i < n) as Hin by (by apply lookup_lt_Some in Hrow).
  assert (contact_of (columns df) row
          ∈ Lead.contact_information <$> leads (pending db2)) as Hc.
  { rewrite Hleads, <-Hlc. apply list_elem_of_fmap. eauto. }
  pose proof (classified_inv (columns df) m db2 (rows df) n (reflexivity _))
    as [Hp Hs _ Hins Hnd Hupd _].
  rewrite <-E in Hp, Hs, Hins, Hnd, Hupd.
  split_and!.
  - destruct (persisted_contact_step (columns df) m db2 (rows df) i row
                Hrow Hv Hc) as (l' & d & Hq & Hd & Hu & _).
    apply query_lead_Some in Hq as [Hq1 Hq2]. rewrite Hleads in Hq1.
    assert (l' = l) as ->.
    { apply (NoDup_fmap_eq Lead.contact_information (leads (pending db)));
        [done..|congruence]. }
    exists d. split; [done|].
    destruct (classified_grows (columns df) m
                (Lead.contact_information <$> leads (pending db2)) db2
                (rows df) (S i) n ltac:(lia) (reflexivity _))
      as (_ & Hpre & _).
    rewrite E. eapply elem_of_prefix; [|done].
    rewrite Hu. apply elem_of_app. right. by left.
  - intros d Hd Hdc. destruct (Hins d Hd) as [Hnot _].
    by rewrite Hdc in Hnot.
  - intros r db'. unfold load_data_file.
    destruct (negb (endswith filename ".csv")); [by intros [= _ <-]|].
    destruct (decide (Forall (λ col, col ∈ columns df) required_columns))
      as [Hcols|Hcols];
      [|rewrite (classify_missing df db Hcols); by intros [= _ <-]].
    rewrite (classify_import_state df db Hcols). fold n.
    set (bn := (import_state df db n).1) in *.
    set (sn := (import_state df db n).2) in *.
    assert (leads (pending sn) = leads (pending db)) as Hsn
      by (by rewrite Hp).
    pose proof (transaction_outcome F (leads_to_insert bn)
                  (leads_to_update bn) sn) as Hout.
    destruct (transaction F _ _ sn) as [[e s]|[[imp upd] s]] eqn:Htx.
    + destruct Hout as [Hout _]. intros [= _ <-]. simpl.
      destruct (import_state_session df db n (reflexivity _)) as [_ Hs'].
      fold sn in Hs'. by rewrite Hout, Hs'.
    + apply transaction_contacts in Htx as [Hst' Hcontacts].
      * intros [= _ <-]. rewrite Hst', Hcontacts, Hsn.
        assert (NoDup ((Lead.contact_information <$> leads (pending db))
                       ++ (contact_information <$> leads_to_insert bn))) as H.
        { apply NoDup_app. split_and!; [done| |done].
          intros c Hc1 (d & -> & Hd)%list_elem_of_fmap.
          destruct (Hins d Hd) as [Hnot _]. by rewrite Hleads in Hnot. }
        done.
      * by rewrite Hsn.
      * intros k d Hkd. rewrite Hsn, <-Hleads. by apply Hupd.
Qed.

Lemma persisted_contact_is_update_witness :
  let row := ["Ada L"; "ada@example.com"; "Cold Call"; "High"; "Closed"; "Ann"] in
  let l := Lead.mk 1 "Ada" "ada@example.com" WEBSITE LOW NEW "Ann" (Some 1) in
  let b := (import_state sample_frame sample_session 4).1 in
  (∃ d, lead_data_of_row required_columns
          (salesperson_map_of sample_frame sample_session) row = inr d ∧
        (1, d) ∈ leads_to_update b) ∧
  (∀ d, d ∈ leads_to_insert b → contact_information d ≠ "ada@example.com") ∧
  (∀ r db',
     load_data_file no_faults "leads.csv" (Frame sample_frame) sample_session
       = (r, db') →
     NoDup (Lead.contact_information <$> leads (stored db')) ∧
     NoDup (Lead.contact_information <$> leads (pending db'))).
Proof.
  apply (persisted_contact_is_update no_faults "leads.csv" sample_frame
           sample_session 2
           ["Ada L"; "ada@example.com"; "Cold Call"; "High"; "Closed"; "Ann"]
           (Lead.mk 1 "Ada" "ada@example.com" WEBSITE LOW NEW "Ann" (Some 1)));
    try reflexivity.
  - apply (bool_decide_eq_true_1 _). vm_compute. reflexivity.
  - apply (bool_decide_eq_true_1 _). vm_compute. reflexivity.
  - apply (bool_decide_eq_true_1 _). vm_compute. reflexivity.
  - simpl. by left.
Defined.

(** ** Salesperson resolution *)

Section Resolution.
Implicit Types (names : list string) (acc : gmap string nat * Session)
  (db : Session) (n a : string).

Lemma unique_elem_of names n : n ∈ unique names ↔ n ∈ names.
Proof.
  induction names as [|a names IH]; simpl; [done|].
  rewrite !elem_of_cons, list_elem_of_filter, IH.
  destruct (decide (n = a)); tauto.
Qed.

Lemma unique_NoDup names : NoDup (unique names).
Proof.
  induction names as [|a names IH]; simpl; constructor.
  - rewrite list_elem_of_filter. by intros [? _].
  - by apply NoDup_filter.
Qed.

Lemma query_salesperson_found n db :
  match fst (query_salesperson n db) with
  | Some p => p ∈ sales_persons (pending db) ∧ SalesPerson.name p = n
  | None => n ∉ salesperson_names db
  end.
Proof.
  unfold query_salesperson, salesperson_names; simpl.
  destruct (list_find _ _) as [[i p]|] eqn:Hf; simpl.
  - apply list_find_Some in Hf as (Hl & Hn & _).
    split; [by eapply list_elem_of_lookup_2|done].
  - rewrite list_find_None, Forall_forall in Hf.
    intros (p & -> & Hp)%list_elem_of_fmap. by apply (Hf p).
Qed.

(** One name: a lookup, and an insertion when the lookup finds nothing. *)
Lemma resolve_salesperson_step acc a :
  a ≠ "" →
  ∃ p,
    (resolve_salesperson acc a).1 = <[a := SalesPerson.id p]> acc.1 ∧
    SalesPerson.name p = a ∧
    p ∈ sales_persons (pending (resolve_salesperson acc a).2) ∧
    calls (resolve_salesperson acc a).2 =
      calls acc.2 ++ resolution_calls (salesperson_names acc.2) a ∧
    sales_persons (pending (resolve_salesperson acc a).2) =
      sales_persons (pending acc.2)
      ++ (if decide (a ∈ salesperson_names acc.2) then [] else [p]).
Proof.
  intros Ha. destruct acc as [m db]. unfold resolve_salesperson.
  rewrite decide_False by done.
  pose proof (query_salesperson_found a db) as Hq.
  unfold resolution_calls.
  destruct (query_salesperson a db) as [[p|] db1] eqn:E; simpl in Hq.
  - destruct Hq as [Hp Hn]. injection E as _ <-.
    assert (a ∈ salesperson_names db) as Hin
      by (apply list_elem_of_fmap; eauto).
    exists p. rewrite !decide_True by done. simpl. by rewrite app_nil_r.
  - injection E as _ <-. rewrite !decide_False by done.
    exists (SalesPerson.mk (next_id (SalesPerson.id <$> sales_persons (pending db)))
              a "temporary_hash").
    simpl. split_and!; try done.
    + apply elem_of_app. right. by left.
    + by rewrite <-app_assoc.
    + by rewrite decide_False.
Qed.

Lemma resolve_salesperson_calls_ext (known known' : list string) names :
  (∀ n, n ∈ names → n ∈ known ↔ n ∈ known') →
  names ≫= resolution_calls known = names ≫= resolution_calls known'.
Proof.
  induction names as [|a names IH]; intros H; [done|].
  rewrite !bind_cons, IH by (intros n Hn; apply H; by right).
  f_equal. unfold resolution_calls.
  destruct (decide (a ∈ known)) as [Hk|Hk];
    [rewrite decide_True|rewrite decide_False]; try done;
    by rewrite <-(H a) by (by left).
Qed.

(** The whole resolution: each name of the list that is not empty is looked
    up once, in the order of the list, and inserted after its lookup when
    the session did not know it; the map sends it to the id of a row of
    that name. *)
Lemma resolve_salespersons_fold names acc :
  NoDup names →
  let r := foldl resolve_salesperson acc names in
  calls r.2 =
    calls acc.2
    ++ (filter (λ n, n ≠ "") names ≫= resolution_calls (salesperson_names acc.2)) ∧
  sales_persons (pending acc.2) `prefix_of` sales_persons (pending r.2) ∧
  (∀ n, n ∉ names → r.1 !! n = acc.1 !! n ∧
                     (n ∈ salesperson_names r.2 ↔ n ∈ salesperson_names acc.2)) ∧
  (∀ n, n ∈ names → n ≠ "" →
        ∃ p, p ∈ sales_persons (pending r.2) ∧ SalesPerson.name p = n ∧
             r.1 !! n = Some (SalesPerson.id p)).
Proof.
  revert acc. induction names as [|a names IH]; intros acc Hnd; simpl.
  { rewrite app_nil_r. split_and!; try done. by intros n ?%elem_of_nil. }
  apply NoDup_cons in Hnd as [Ha Hnd].
  destruct (IH (resolve_salesperson acc a) Hnd) as (Hc & Hp & Hout & Hin).
  destruct (decide (a = "")) as [->|Hne].
  - assert (resolve_salesperson acc "" = acc) as E.
    { destruct acc. unfold resolve_salesperson. by rewrite decide_True. }
    rewrite E in *. rewrite filter_cons_False by (by intros ?).
    split_and!; try done.
    + intros n Hn. apply Hout. intros ?. apply Hn. by right.
    + intros n [->|Hn]%elem_of_cons Hne; [done|]. by apply Hin.
  - destruct (resolve_salesperson_step acc a Hne)
      as (p & Hm & Hpn & Hpin & Hcalls & Hsp).
    assert (∀ n, n ≠ a →
              n ∈ salesperson_names (resolve_salesperson acc a).2
              ↔ n ∈ salesperson_names acc.2) as Hnames.
    { intros n Hn. unfold salesperson_names. rewrite Hsp, fmap_app, elem_of_app.
      case_decide; simpl; [rewrite elem_of_nil; tauto|].
      rewrite list_elem_of_singleton, Hpn. tauto. }
    rewrite filter_cons_True by done. rewrite bind_cons.
    split_and!.
    + rewrite Hc, Hcalls, <-app_assoc. do 2 f_equal.
      apply resolve_salesperson_calls_ext.
      intros n [_ Hn]%list_elem_of_filter. apply Hnames.
      intros ->. done.
    + etrans; [|done]. rewrite Hsp. by apply prefix_app_r.
    + intros n Hn. apply not_elem_of_cons in Hn as [Hna Hn].
      destruct (Hout n Hn) as [-> ->]. split; [|by apply Hnames].
      rewrite Hm. by apply lookup_insert_ne.
    + intros n [->|Hn]%elem_of_cons Hn0; [|by apply Hin].
      exists p. destruct (Hout a Ha) as [-> _].
      split_and!; try done.
      * by eapply elem_of_prefix.
      * rewrite Hm. apply lookup_insert_eq.
Qed.
End Resolution.

(** ** Counting the calls of an import *)

Lemma count_calls_app c cs1 cs2 :
  count_calls c (cs1 ++ cs2) = count_calls c cs1 + count_calls c cs2.
Proof. unfold count_calls. by rewrite filter_app, length_app. Qed.

Lemma count_calls_cons c x cs :
  count_calls c (x :: cs) =
  (if decide (x = c) then 1 else 0) + count_calls c cs.
Proof.
  unfold count_calls. rewrite filter_cons. by case_decide.
Qed.

Lemma count_resolution_call known a n :
  count_calls (QuerySalesPerson n) (resolution_calls known a) =
    (if decide (a = n) then 1 else 0) ∧
  count_calls (AddSalesPerson n) (resolution_calls known a) =
    (if decide (a = n ∧ a ∉ known) then 1 else 0).
Proof.
  unfold resolution_calls.
  destruct (decide (a ∈ known)); rewrite !count_calls_cons;
    repeat case_decide; try done; exfalso; destruct_and?; subst;
    try congruence; tauto.
Qed.

Lemma count_resolution_calls known names n :
  NoDup names →
  count_calls (QuerySalesPerson n) (names ≫= resolution_calls known) =
    (if decide (n ∈ names) then 1 else 0) ∧
  count_calls (AddSalesPerson n) (names ≫= resolution_calls known) =
    (if decide (n ∈ names ∧ n ∉ known) then 1 else 0).
Proof.
  induction names as [|a names IH]; intros Hnd.
  { split; (case_decide as H; [exfalso|done]).
    - by apply elem_of_nil in H.
    - destruct H as [H _]. by apply elem_of_nil in H. }
  apply NoDup_cons in Hnd as [Ha Hnd]. destruct (IH Hnd) as [IH1 IH2].
  destruct (count_resolution_call known a n) as [H1 H2].
  rewrite bind_cons, !count_calls_app, IH1, IH2, H1, H2.
  split; repeat case_decide; try done; exfalso;
    rewrite ?elem_of_cons in *; destruct_and?; destruct_or?; subst; tauto.
Qed.

(** The row loop issues lead queries only. *)
Lemma classified_calls cols m contacts db rs k c :
  k ≤ length rs → (∀ x, c ≠ QueryLead x) →
  count_calls c (calls (classified cols m contacts db rs k).2)
  = count_calls c (calls db).
Proof.
  intros Hk Hc. revert k Hk.
  apply (classified_ind cols m contacts db rs
           (λ _ st, count_calls c (calls st.2) = count_calls c (calls db)));
    [done|].
  intros k row b s _ _ IH. simpl in IH.
  destruct (process_row_cases cols m k row b s)
    as [(_ & e & -> & _)|(_ & d & _ & [(_ & ->)|(_ & ->)])]; simpl; try done.
  rewrite count_calls_app, IH, count_calls_cons.
  rewrite decide_False by (intros E; by apply (Hc (contact_of cols row))).
  done.
Qed.

Lemma import_state_unfold df db k :
  let r := resolve_salespersons (unique (salespersons_of df)) db in
  import_state df db k =
  classified (columns df) (salesperson_map_of df db)
    (Lead.contact_information <$> leads (pending r.2))
    (log QueryContacts r.2) (rows df) k.
Proof.
  unfold import_state, salesperson_map_of. simpl.
  by destruct (resolve_salespersons _ _).
Qed.

(** C5: in the import of a frame with its columns, a salesperson name that
    is not empty is looked up once, and inserted once when the session did
    not know it and never otherwise; line 316 gives every row of that name
    the id of one salesperson row of that name, and the dictionary of a row
    whose enum cells name members carries it; such a row with an empty
    salesperson name gets no id, and when its name and contact
    are not empty the loop records no error for it. *)
Theorem salesperson_resolved_once df db n :
  let cols := columns df in
  let m := salesperson_map_of df db in
  let final := (import_state df db (length (rows df))).2 in
  Forall (λ col, col ∈ cols) required_columns →
  n ≠ "" → n ∈ salespersons_of df →
  count_calls (QuerySalesPerson n) (calls final)
    = S (count_calls (QuerySalesPerson n) (calls db)) ∧
  count_calls (AddSalesPerson n) (calls final)
    = count_calls (AddSalesPerson n) (calls db)
      + (if decide (n ∈ salesperson_names db) then 0 else 1) ∧
  (∃ p, p ∈ sales_persons (pending final) ∧ SalesPerson.name p = n ∧
        salesperson_id_of m n = Some (SalesPerson.id p) ∧
        ∀ row s i t,
          salesperson_of cols row = n →
          Source_of (cell cols row "Source") = inr s →
          Interest_of (cell cols row "Interest Level") = inr i →
          Status_of (cell cols row "Status") = inr t →
          ∃ d, lead_data_of_row cols m row = inr d ∧
               salesperson_id d = Some (SalesPerson.id p)) ∧
  (∀ row s i t,
     salesperson_of cols row = "" →
     Source_of (cell cols row "Source") = inr s →
     Interest_of (cell cols row "Interest Level") = inr i →
     Status_of (cell cols row "Status") = inr t →
     (∃ d, lead_data_of_row cols m row = inr d ∧ salesperson_id d = None) ∧
     (cell cols row "Lead Name" ≠ "" →
      cell cols row "Contact Information" ≠ "" →
      ∀ index b s0,
        errors (process_row cols m index row (b, s0)).1 = errors b)).
Proof.
  intros cols m final Hcols Hne Hn. subst cols final m.
  rewrite import_state_unfold. simpl.
  set (names := unique (salespersons_of df)).
  set (r := resolve_salespersons names db).
  assert (salesperson_map_of df db = r.1) as Hm by done.
  destruct (resolve_salespersons_fold names (∅, db) (unique_NoDup _))
    as (Hcalls & _ & _ & Hin). fold (resolve_salespersons names db) in Hcalls, Hin.
  fold r in Hcalls, Hin. simpl in Hcalls.
  assert (n ∈ filter (λ n, n ≠ "") names) as Hn'.
  { apply list_elem_of_filter. split; [done|]. by apply unique_elem_of. }
  destruct (count_resolution_calls (salesperson_names db)
              (filter (λ n, n ≠ "") names) n) as [Hq Ha].
  { apply NoDup_filter, unique_NoDup. }
  pose proof (classified_inv (columns df) (salesperson_map_of df db)
                (log QueryContacts r.2) (rows df)
                (length (rows df)) (reflexivity _)) as [Hp _ _ _ _ _ _].
  simpl in Hp.
  split_and!.
  - rewrite classified_calls by done. simpl.
    rewrite count_calls_app, Hcalls, count_calls_app, Hq.
    rewrite decide_True by done. rewrite count_calls_cons.
    rewrite decide_False by done.
    change (count_calls (QuerySalesPerson n) []) with 0. lia.
  - rewrite classified_calls by done. simpl.
    rewrite count_calls_app, Hcalls, count_calls_app, Ha.
    rewrite count_calls_cons.
    rewrite (decide_False (P := QueryContacts = AddSalesPerson n)) by done.
    change (count_calls (AddSalesPerson n) []) with 0.
    destruct (decide (n ∈ salesperson_names db)) as [Hk|Hk].
    + rewrite decide_False by tauto. lia.
    + rewrite decide_True by done. lia.
  - destruct (Hin n) as (p & Hpin & Hpn & Hpm); [by apply unique_elem_of|done|].
    exists p. rewrite Hp. split_and!; try done.
    { unfold salesperson_id_of. by rewrite decide_False, Hm. }
    intros row s i t Hrow Hs Hi Ht.
    rewrite (lead_data_of_row_valid_enums (columns df) (salesperson_map_of df db)
               row s i t Hcols Hs Hi Ht).
    eexists. split; [done|]. simpl. unfold salesperson_of in Hrow.
    rewrite Hrow. unfold salesperson_id_of. by rewrite decide_False, Hm.
  - intros row s i t Hrow Hs Hi Ht.
    pose proof (lead_data_of_row_valid_enums (columns df)
                  (salesperson_map_of df db) row s i t Hcols Hs Hi Ht) as Hd.
    split.
    + eexists. split; [done|]. simpl. unfold salesperson_of in Hrow.
      by rewrite Hrow.
    + intros Hname Hcontact index b s0.
      rewrite Hd. simpl. rewrite decide_False by tauto.
      repeat case_match; subst; simpl; congruence.
Qed.

Lemma salesperson_resolved_once_witness :
  let m := salesperson_map_of sample_frame sample_session in
  let final := (import_state sample_frame sample_session 4).2 in
  count_calls (QuerySalesPerson "Joe") (calls final) = 1 ∧
  count_calls (AddSalesPerson "Joe") (calls final) = 0 + 1 ∧
  (∃ p, p ∈ sales_persons (pending final) ∧ SalesPerson.name p = "Joe" ∧
        salesperson_id_of m "Joe" = Some (SalesPerson.id p) ∧
        ∀ row s i t,
          salesperson_of required_columns row = "Joe" →
          Source_of (cell required_columns row "Source") = inr s →
          Interest_of (cell required_columns row "Interest Level") = inr i →
          Status_of (cell required_columns row "Status") = inr t →
          ∃ d, lead_data_of_row required_columns m row = inr d ∧
               salesperson_id d = Some (SalesPerson.id p)) ∧
  (∀ row s i t,
     salesperson_of required_columns row = "" →
     Source_of (cell required_columns row "Source") = inr s →
     Interest_of (cell required_columns row "Interest Level") = inr i →
     Status_of (cell required_columns row "Status") = inr t →
     (∃ d, lead_data_of_row required_columns m row = inr d ∧
           salesperson_id d = None) ∧
     (cell required_columns row "Lead Name" ≠ "" →
      cell required_columns row "Contact Information" ≠ "" →
      ∀ index b s0,
        errors (process_row required_columns m index row (b, s0)).1
        = errors b)).
Proof.
  apply (salesperson_resolved_once sample_frame sample_session "Joe").
  - apply (bool_decide_eq_true_1 _). vm_compute. reflexivity.
  - done.
  - apply (bool_decide_eq_true_1 _). vm_compute. reflexivity.
Defined.

(** ** Access tokens *)

Section TokenProperties.
Context (hmac_sha256 : string → string → Claims → string) (SECRET_KEY : string).

Local Abbreviation verify := (verify_token hmac_sha256 SECRET_KEY).
Local Abbreviation decode := (jwt_decode hmac_sha256).

Lemma timegm_mono a b : (a ≤ b)%Z → (timegm a ≤ timegm b)%Z.
Proof using Type. intros H. unfold timegm. apply Z.div_le_mono; lia. Qed.

(** When [verify_token] answers with a subject. *)
Lemma verify_token_Some token now email e :
  verify token now = Some (email, e) ↔
  ∃ payload,
    token = Jws ALGORITHM payload (hmac_sha256 SECRET_KEY ALGORITHM payload) ∧
    sub payload = Some email ∧ exp payload = e ∧
    ∀ x, e = Some x → (timegm now ≤ x)%Z.
Proof using Type.
  unfold verify_token, jwt_decode. split.
  - destruct token as [|alg payload signature]; [done|].
    destruct (decide (alg ∉ [ALGORITHM])) as [Ha|Ha]; [done|].
    apply dec_stable, list_elem_of_singleton in Ha as ->.
    destruct (decide (signature ≠ _)) as [Hs|Hs]; [done|].
    apply dec_stable in Hs as ->.
    destruct (exp payload) as [x|] eqn:He.
    + destruct (decide (x < timegm now)%Z) as [Hlt|Hge]; [done|].
      destruct (sub payload) as [email'|] eqn:Hsub; [|done].
      intros [= <- <-]. exists payload. split_and!; try done.
      intros x0 Hx0. rewrite He in Hx0. injection Hx0 as <-. lia.
    + destruct (sub payload) as [email'|] eqn:Hsub; [|done].
      intros [= <- <-]. exists payload. split_and!; try done.
      intros x0 Hx0. by rewrite He in Hx0.
  - intros (payload & -> & Hsub & He & Hx).
    rewrite decide_False by (intros H; apply H; by left).
    rewrite decide_False by (by intros H).
    rewrite He. destruct e as [x|]; [|by rewrite Hsub, He].
    rewrite decide_False; [by rewrite Hsub, He|].
    specialize (Hx x eq_refl). lia.
Qed.

Lemma verify_token_None token now :
  verify token now = None ↔ ∀ email e, verify token now ≠ Some (email, e).
Proof using Type.
  destruct (verify token now) as [[email e]|]; split; try done.
  intros H. by destruct (H email e).
Qed.
End TokenProperties.

(** C6 (as amended): the token of a login at time [t] validates to its
    subject at every [now] before the expiry [t + 30 minutes]; it fails to
    validate exactly when the whole second of [now] is past the whole second
    of the expiry; and with any other signature it fails to validate. *)
Theorem token_round_trip hmac key subject t now signature :
  let expiry := (t + timedelta_minutes ACCESS_TOKEN_EXPIRE_MINUTES)%Z in
  let payload := {| sub := Some subject; exp := Some (timegm expiry) |} in
  login_token hmac key subject t = Jws ALGORITHM payload (hmac key ALGORITHM payload) ∧
  ((now < expiry)%Z →
   verify_token hmac key (login_token hmac key subject t) now
   = Some (subject, Some (timegm expiry))) ∧
  (verify_token hmac key (login_token hmac key subject t) now = None
   ↔ (timegm expiry < timegm now)%Z) ∧
  (signature ≠ hmac key ALGORITHM payload →
   verify_token hmac key (Jws ALGORITHM payload signature) now = None).
Proof.
  intros expiry payload.
  assert (login_token hmac key subject t
          = Jws ALGORITHM payload (hmac key ALGORITHM payload)) as E.
  { unfold login_token, create_access_token, jwt_encode.
    by rewrite decide_False. }
  rewrite E. split_and!; [done|..].
  - intros Hnow. apply verify_token_Some. exists payload.
    split_and!; try done. intros x [= <-]. apply timegm_mono. lia.
  - rewrite verify_token_None. split.
    + intros H. destruct (decide (timegm expiry < timegm now)%Z); [done|].
      destruct (H subject (Some (timegm expiry))).
      apply verify_token_Some. exists payload. split_and!; try done.
      intros x [= <-]. lia.
    + intros Hlt email e (p & [= <-] & _ & <- & Hx)%verify_token_Some.
      specialize (Hx _ eq_refl). lia.
  - intros Hsig. apply verify_token_None.
    intros email e (p & [= <- Hp] & _)%verify_token_Some. done.
Qed.

Lemma token_round_trip_witness :
  let payload := {| sub := Some "admin@example.com"; exp := Some 1800%Z |} in
  verify_token sample_hash "secret"
    (login_token sample_hash "secret" "admin@example.com" 0) 1799999999
  = Some ("admin@example.com", Some 1800%Z) ∧
  verify_token sample_hash "secret"
    (login_token sample_hash "secret" "admin@example.com" 0) 1801000000
  = None ∧
  verify_token sample_hash "secret" (Jws ALGORITHM payload "forged") 1799999999
  = None.
Proof.
  split_and!.
  - apply (token_round_trip sample_hash "secret" "admin@example.com" 0
             1799999999 "forged"). by vm_compute.
  - apply (token_round_trip sample_hash "secret" "admin@example.com" 0
             1801000000 "forged"). by vm_compute.
  - apply (token_round_trip sample_hash "secret" "admin@example.com" 0
             1799999999 "forged"). by vm_compute.
Defined.

(** C6, as stated, fails at the expiry itself: the token of a login at time
    0 expires at 1800 s; it validates at that time and half a second
    later. *)
Lemma token_valid_at_expiry :
  let token := login_token sample_hash "secret" "admin@example.com" 0 in
  (0 + timedelta_minutes ACCESS_TOKEN_EXPIRE_MINUTES ≤ 1800000000)%Z ∧
  verify_token sample_hash "secret" token 1800000000
  = Some ("admin@example.com", Some 1800%Z) ∧
  verify_token sample_hash "secret" token 1800500000
  = Some ("admin@example.com", Some 1800%Z).
Proof. split_and!; [by vm_compute|reflexivity..]. Qed.

(** C7 (as amended): on a string that is no JWS, and on a JWS whose payload
    holds nothing but a string [sub] and an integer [exp], each of which may
    be absent, [verify_token] answers [None] exactly when the token is
    malformed, its algorithm is not HS256, its signature is not the one of
    its header and payload, its expiry is smaller than the current whole
    second, or it has no subject; in every other case it answers with the
    subject and the expiry of the payload. *)
Theorem verify_token_none_iff hmac key token now :
  (verify_token hmac key token now = None ↔
   match token with
   | Malformed _ => True
   | Jws alg payload signature =>
       alg ≠ ALGORITHM ∨ signature ≠ hmac key alg payload ∨
       (∃ e, exp payload = Some e ∧ (e < timegm now)%Z) ∨
       sub payload = None
   end) ∧
  (∀ email e,
     verify_token hmac key token now = Some (email, e) ↔
     ∃ payload,
       token = Jws ALGORITHM payload (hmac key ALGORITHM payload) ∧
       sub payload = Some email ∧ exp payload = e ∧
       ∀ x, e = Some x → (timegm now ≤ x)%Z).
Proof.
  split; [|intros email e; apply verify_token_Some].
  rewrite verify_token_None.
  destruct token as [text|alg payload signature].
  { split; [done|]. intros _ email e (p & [=] & _)%verify_token_Some. }
  split.
  - intros H.
    destruct (decide (alg = ALGORITHM)) as [->|]; [|by left].
    destruct (decide (signature = hmac key ALGORITHM payload)) as [->|];
      [|by right; left].
    destruct (sub payload) as [email|] eqn:Hsub; [|by do 3 right].
    right; right; left.
    destruct (exp payload) as [x|] eqn:He.
    + exists x. split; [done|].
      destruct (decide (x < timegm now)%Z); [done|].
      destruct (H email (Some x)). apply verify_token_Some.
      exists payload. split_and!; try done. intros ? [= <-]. lia.
    + destruct (H email None). apply verify_token_Some.
      exists payload. by split_and!.
  - intros H email e (p & [= -> <- ->] & Hsub & He & Hx)%verify_token_Some.
    destruct H as [?|[?|[(x & Hx' & ?)|?]]]; try done; [|congruence].
    rewrite He in Hx'. specialize (Hx x Hx'). lia.
Qed.

Lemma verify_token_none_iff_witness :
  let payload := {| sub := Some "admin@example.com"; exp := Some 1800%Z |} in
  verify_token sample_hash "secret" (Malformed "not a token") 0 = None ∧
  verify_token sample_hash "secret" (Jws "none" payload "") 0 = None ∧
  verify_token sample_hash "secret" (Jws ALGORITHM payload "forged") 0 = None ∧
  verify_token sample_hash "secret"
    (jwt_encode sample_hash payload "secret" ALGORITHM) 1801000000 = None.
Proof.
  split_and!.
  - by apply (verify_token_none_iff sample_hash "secret"
                (Malformed "not a token") 0).
  - apply (verify_token_none_iff sample_hash "secret"
             (Jws "none" {| sub := Some "admin@example.com";
                            exp := Some 1800%Z |} "") 0).
    by left.
  - apply (verify_token_none_iff sample_hash "secret"
             (Jws ALGORITHM {| sub := Some "admin@example.com";
                               exp := Some 1800%Z |} "forged") 0).
    right; left. by vm_compute.
  - apply (verify_token_none_iff sample_hash "secret"
             (jwt_encode sample_hash {| sub := Some "admin@example.com";
                                        exp := Some 1800%Z |}
                "secret" ALGORITHM) 1801000000).
    right; right; left. exists 1800%Z. split; [done|by vm_compute].
Defined.

(** C7, as stated, fails in both directions: a token whose expiry is the
    current second validates, and a token with a valid signature and a later
    expiry but no subject does not. *)
Lemma verify_token_counterexample :
  let payload := {| sub := Some "admin@example.com"; exp := Some 1800%Z |} in
  let token := jwt_encode sample_hash payload "secret" ALGORITHM in
  let anonymous := create_access_token sample_hash "secret" None None 0 in
  ((1800 ≤ timegm 1800000000)%Z ∧
   verify_token sample_hash "secret" token 1800000000
   = Some ("admin@example.com", Some 1800%Z)) ∧
  (anonymous = Jws ALGORITHM {| sub := None; exp := Some 1800%Z |}
                 (sample_hash "secret" ALGORITHM
                    {| sub := None; exp := Some 1800%Z |}) ∧
   verify_token sample_hash "secret" anonymous 0 = None).
Proof. split_and!; try reflexivity. Qed.

(** * Further properties of the import *)

Section RowErrors.
Context (cols : list string) (m : gmap string nat) (contacts : list string)
  (db : Session) (rs : list (list string)).

Local Abbreviation state := (classified cols m contacts db rs).

Lemma invalid_row_numbers_app i l1 l2 :
  invalid_row_numbers cols i (l1 ++ l2) =
  invalid_row_numbers cols i l1
  ++ invalid_row_numbers cols (i + length l1) l2.
Proof using Type.
  revert i. induction l1 as [|r l1 IH]; intros i; simpl.
  - by rewrite Nat.add_0_r.
  - rewrite IH, <-app_assoc. do 3 f_equal. lia.
Qed.

(** What the loop does on a row that is not valid: one error with the number
    of the row, and nothing else. *)
Lemma invalid_row_step k row :
  rs !! k = Some row → valid_row cols row = false →
  ∃ e, error_row e = Some (RowNumber_of_nat (k + 2)) ∧
       errors (state (S k)).1 = errors (state k).1 ++ [e] ∧
       leads_to_insert (state (S k)).1 = leads_to_insert (state k).1 ∧
       leads_to_update (state (S k)).1 = leads_to_update (state k).1 ∧
       duplicates_found (state (S k)).1 = duplicates_found (state k).1 ∧
       existing_contacts (state (S k)).1 = existing_contacts (state k).1.
Proof using Type.
  intros Hrow Hv. rewrite (classified_S _ _ _ _ _ _ _ Hrow).
  destruct (state k) as [b s].
  destruct (process_row_cases cols m k row b s)
    as [(_ & e & -> & He)|(Hv' & _)]; [|congruence].
  exists e. split_and!; try done.
  destruct He as [(d & _ & ->)|(x & _ & ->)]; [done|by destruct x].
Qed.

Lemma valid_row_errors k row :
  rs !! k = Some row → valid_row cols row = true →
  errors (state (S k)).1 = errors (state k).1.
Proof using Type.
  intros Hrow Hv. rewrite (classified_S _ _ _ _ _ _ _ Hrow).
  destruct (state k) as [b s].
  destruct (process_row_cases cols m k row b s)
    as [(Hv' & _)|(_ & d & _ & [(_ & ->)|(_ & ->)])]; [congruence|done..].
Qed.

Lemma classified_error_rows k :
  k ≤ length rs →
  error_row <$> errors (state k).1
  = Some <$> invalid_row_numbers cols 0 (take k rs).
Proof using Type.
  induction k as [|k IH]; intros Hk; [done|].
  destruct (lookup_lt_is_Some_2 rs k) as [row Hrow]; [lia|].
  rewrite (take_S_r _ _ _ Hrow), invalid_row_numbers_app, fmap_app.
  rewrite <-IH by lia. rewrite length_take_le by lia. simpl.
  destruct (valid_row cols row) eqn:Hv.
  - rewrite (valid_row_errors k row Hrow Hv). by rewrite app_nil_r.
  - destruct (invalid_row_step k row Hrow Hv) as (e & He & -> & _).
    rewrite fmap_app. simpl. by rewrite He.
Qed.
End RowErrors.
(** ** The result of an accepted upload *)

(** The result is read off the batch of the whole frame and the outcome of
    the transaction. *)
Lemma load_data_file_frame F filename df db :
  endswith filename ".csv" = true →
  Forall (λ col, col ∈ columns df) required_columns →
  let n := length (rows df) in
  let b := (import_state df db n).1 in
  load_data_file F filename (Frame df) db =
    match transaction F (leads_to_insert b) (leads_to_update b)
            (import_state df db n).2 with
    | inr ((rows_imported, rows_updated), db') =>
        (Returns (LoadResult.mk filename n rows_imported rows_updated
                    (duplicates_found b) (errors b)), db')
    | inl (e, db') =>
        (Returns (LoadResult.mk filename n 0 0 (duplicates_found b)
                    (errors b ++ [DatabaseError e])), rollback db')
    end.
Proof.
  intros Hcsv Hcols n b. unfold load_data_file.
  rewrite Hcsv, (classify_import_state df db Hcols). simpl.
  by destruct (transaction F _ _ _) as [[e db']|[[i u] db']].
Qed.

(** Under either index, a result comes from a batch that sorts the rows as
    the loop under the default index does. *)
Lemma load_data_file_batch F filename csv db r db' :
  load_data_file F filename csv db = (Returns r, db') →
  ∃ df b,
    (csv = Frame df ∨ ∃ lf, csv = IndexedFrame lf ∧ df = unlabelled lf) ∧
    Forall (λ col, col ∈ columns df) required_columns ∧
    sorted_into b = sorted_into (import_state df db (length (rows df))).1 ∧
    write_batch F filename (length (rows df)) b
      (import_state df db (length (rows df))).2 = (Returns r, db').
Proof.
  intros H.
  pose proof (load_data_file_returns F filename csv db r db' H)
    as (Hcsv & _ & (cols & Hc & Hcols) & _).
  unfold load_data_file in H. rewrite Hcsv in H. simpl in H.
  destruct csv as [e| |e|df|lf]; try done; injection Hc as <-.
  - rewrite (classify_import_state df db Hcols) in H.
    exists df, (import_state df db (length (rows df))).1. by split_and!; [left|..].
  - pose proof (classify_labelled_outcome lf db Hcols) as Hout.
    destruct (classify_labelled lf db) as [[[c d] s]|[[k b] s]]; [done|].
    destruct Hout as (_ & -> & -> & Hb).
    exists (unlabelled lf), b. split_and!; try done. right. by exists lf.
Qed.

(** X1: An upload gets a result only when its name ends in ".csv", its content
    decodes and parses to a frame with the required columns and, under an
    index of the file, no row in error has a label that is no number.  An
    upload with another name, without a frame or without the columns is
    refused before any call on the session: with status 400, or unhandled
    when the content does not decode.  Every HTTP error has status 400 and
    leaves the committed store as it was. *)
Theorem upload_rejected_before_any_call F filename csv db :
  (∀ r db', load_data_file F filename csv db = (Returns r, db') →
     endswith filename ".csv" = true ∧
     (∃ cols, columns_of csv = Some cols ∧
              Forall (λ col, col ∈ cols) required_columns) ∧
     (∀ lf, csv = IndexedFrame lf →
            loop_completes (labelled_columns lf) (labelled_rows lf) = true)) ∧
  (endswith filename ".csv" = false ∨
   (∀ cols, columns_of csv = Some cols →
            ¬ Forall (λ col, col ∈ cols) required_columns) →
   ∃ response,
     load_data_file F filename csv db = (response, db) ∧
     match response with
     | HTTPException status_code _ => status_code = 400
     | Unhandled e => csv = UnicodeDecodeError e
     | Returns _ => False
     end) ∧
  (∀ status_code detail db',
     load_data_file F filename csv db = (HTTPException status_code detail, db') →
     status_code = 400 ∧ stored db' = stored db).
Proof.
  split_and!.
  - intros r db' H. apply load_data_file_returns in H. tauto.
  - intros H. unfold load_data_file.
    destruct (endswith filename ".csv"); simpl; [|by eexists].
    destruct H as [|H]; [done|].
    destruct csv as [e| |e|df|lf]; try by eexists.
    + rewrite (classify_missing df db (H _ eq_refl)). by eexists.
    + destruct (classify_labelled_missing lf db (H _ eq_refl)) as [detail ->].
      by eexists.
  - intros status_code detail db' H.
    apply load_data_file_refused in H as (? & _ & ?); done.
Qed.

(** X2: In a result without a database error every row of the upload is counted
    once, as imported, in error, or duplicate, and no more rows are updated
    than duplicates were found. *)
Theorem committed_import_accounts_for_rows F filename csv db r db' :
  load_data_file F filename csv db = (Returns r, db') →
  (∀ e, DatabaseError e ∉ LoadResult.errors r) →
  LoadResult.rows_processed r
  = LoadResult.rows_imported r + length (LoadResult.errors r)
    + LoadResult.duplicates_found r ∧
  LoadResult.rows_updated r ≤ LoadResult.duplicates_found r.
Proof.
  intros H Hno.
  apply load_data_file_batch in H as (df & b & _ & Hcols & Hb & H).
  unfold write_batch in H.
  pose proof (transaction_outcome F (leads_to_insert b) (leads_to_update b)
                (import_state df db (length (rows df))).2) as Hout.
  destruct (transaction F _ _ _) as [[e s']|[[i u] s']]; injection H as <- _.
  { destruct (Hno e). simpl. apply elem_of_app. right. by left. }
  destruct Hout as (-> & -> & _). simpl.
  unfold sorted_into in Hb. injection Hb as -> -> -> -> _.
  rewrite import_state_unfold. simpl.
  set (s := resolve_salespersons _ db).
  pose proof (rows_accounted (columns df) (salesperson_map_of df db)
                (Lead.contact_information <$> leads (pending s.2))
                (log QueryContacts s.2) (rows df) (length (rows df))
                (reflexivity _)) as Hacc.
  pose proof (updates_within_duplicates (columns df) (salesperson_map_of df db)
                (Lead.contact_information <$> leads (pending s.2))
                (log QueryContacts s.2) (rows df) 0 (length (rows df))
                ltac:(lia) (reflexivity _)) as Hupd.
  simpl in Hupd. lia.
Qed.

Lemma committed_import_accounts_for_rows_witness :
  let r := LoadResult.mk "leads.csv" 2 1 0 0
             [InvalidEnumValue (IntRow (-3)) "Source" "Unknown"] in
  LoadResult.rows_processed r
  = LoadResult.rows_imported r + length (LoadResult.errors r)
    + LoadResult.duplicates_found r ∧
  LoadResult.rows_updated r ≤ LoadResult.duplicates_found r.
Proof.
  eapply (committed_import_accounts_for_rows no_faults "leads.csv"
            (IndexedFrame numbered_sample) sample_session).
  - reflexivity.
  - intros e H. apply list_elem_of_singleton in H. discriminate H.
Defined.

Lemma omap_fmap_Some {A B} (f : A → option B) (l : list A) (k : list B) :
  f <$> l = Some <$> k → omap f l = k.
Proof.
  revert k. induction l as [|a l IH]; intros [|b k]; simpl; try done.
  intros [= Ha Hl]. rewrite Ha. simpl. f_equal. by apply IH.
Qed.

(** X3: The row errors of a result for a frame under the default index carry,
    in order, the numbers of the rows that are not valid, the first data row
    being row 2. *)
Theorem errors_number_the_invalid_rows F filename df db r db' :
  load_data_file F filename (Frame df) db = (Returns r, db') →
  omap error_row (LoadResult.errors r)
  = invalid_row_numbers (columns df) 0 (rows df).
Proof.
  intros H.
  pose proof (load_data_file_returns F filename (Frame df) db r db' H)
    as (Hcsv & _ & (cols & [= <-] & Hcols) & _).
  rewrite (load_data_file_frame F filename df db Hcsv Hcols) in H.
  assert (omap error_row (errors (import_state df db (length (rows df))).1)
          = invalid_row_numbers (columns df) 0 (rows df)) as E.
  { rewrite import_state_unfold. simpl. apply omap_fmap_Some.
    rewrite classified_error_rows by done. by rewrite take_ge. }
  destruct (transaction F _ _ _) as [[e s]|[[i u] s]];
    injection H as <- _; simpl; [|done].
  by rewrite omap_app, E, app_nil_r.
Qed.

Lemma errors_number_the_invalid_rows_witness :
  ∃ db',
    load_data_file no_faults "leads.csv" (Frame blank_name_frame) sample_session
    = (Returns (LoadResult.mk "leads.csv" 2 1 0 0
                  [InvalidEnumValue 2 "Source" "Unknown"]), db') ∧
    omap error_row [InvalidEnumValue 2 "Source" "Unknown"]
    = invalid_row_numbers required_columns 0 (rows blank_name_frame) ∧
    invalid_row_numbers required_columns 0 (rows blank_name_frame)
    = [RowNumber_of_nat 2].
Proof.
  eexists. split; [reflexivity|]. split; [|reflexivity].
  eapply (errors_number_the_invalid_rows no_faults "leads.csv"
            blank_name_frame sample_session
            (LoadResult.mk "leads.csv" 2 1 0 0
               [InvalidEnumValue 2 "Source" "Unknown"])).
  reflexivity.
Defined.

(** ** What an import inserts *)

Lemma unique_snoc (l : list string) x :
  unique (l ++ [x]) = if decide (x ∈ l) then unique l else unique l ++ [x].
Proof.
  induction l as [|a l IH]; simpl.
  - done.
  - rewrite IH. destruct (decide (x = a)) as [->|Hne].
    + rewrite (decide_True (P := a ∈ a :: l)) by (by left).
      case_decide; [done|].
      rewrite filter_app, filter_cons_False, filter_nil, app_nil_r; [done|].
      by intros ?.
    + destruct (decide (x ∈ l)) as [Hin|Hin].
      * rewrite decide_True; [done|by right].
      * rewrite decide_False by (by intros [?|?]%elem_of_cons).
        by rewrite filter_app, filter_cons_True.
Qed.

Section Inserted.
Context (cols : list string) (m : gmap string nat) (db : Session)
  (rs : list (list string)).

Local Abbreviation contacts := (Lead.contact_information <$> leads (pending db)).
Local Abbreviation state := (classified cols m contacts db rs).

(** The insert list holds, in the order of the rows, the first valid row of
    each contact that the session does not hold. *)
Lemma classified_insert_contacts k :
  k ≤ length rs →
  contact_information <$> leads_to_insert (state k).1
  = unique (filter (λ c, c ∉ contacts)
              (contact_of cols
                 <$> filter (λ row, valid_row cols row = true) (take k rs))).
Proof using Type.
  induction k as [|k IH]; intros Hk; [done|].
  destruct (lookup_lt_is_Some_2 rs k) as [row Hrow]; [lia|].
  specialize (IH ltac:(lia)).
  rewrite (take_S_r _ _ _ Hrow), filter_app.
  destruct (valid_row cols row) eqn:Hv.
  - rewrite (filter_cons_True _ row) by done.
    rewrite filter_nil, fmap_app, filter_app. simpl.
    destruct (decide (contact_of cols row ∈ contacts)) as [Hc|Hc].
    + rewrite filter_cons_False by tauto. rewrite filter_nil, app_nil_r, <-IH.
      destruct (persisted_contact_step cols m db rs k row Hrow Hv Hc)
        as (_ & _ & _ & _ & _ & -> & _). done.
    + rewrite filter_cons_True by done.
      rewrite filter_nil, unique_snoc, <-IH.
      destruct (valid_row_step cols m db rs k row Hrow Hv)
        as (d & b & s & E & Hd & _ & H).
      pose proof (classified_inv cols m db rs k ltac:(lia)) as [_ _ Hknown _ _ _ _].
      rewrite E in Hknown, IH |- *. simpl in Hknown, IH. simpl.
      pose proof (lead_data_of_row_inr cols m row d Hd) as (Hdc & _).
      destruct H as [[Hin ->]|[Hin ->]]; simpl.
      * apply Hknown in Hin as [?|Hin]; [done|].
        rewrite decide_True; [done|]. apply unique_elem_of. by rewrite <-IH.
      * rewrite decide_False; [rewrite fmap_app; simpl; by rewrite Hdc|].
        intros HL. apply Hin, Hknown. right. rewrite IH.
        by apply unique_elem_of.
  - rewrite (filter_cons_False _ row) by (by rewrite Hv).
    rewrite filter_nil, app_nil_r, <-IH.
    destruct (invalid_row_step cols m contacts db rs k row Hrow Hv)
      as (_ & _ & _ & -> & _). done.
Qed.
End Inserted.

Lemma no_faults_never_raise b : ¬ write_raises no_faults b.
Proof.
  intros [[_ [e He]]|[(k & _ & [e He])|[e He]]]; discriminate He.
Qed.

Lemma import_state_insert_contacts df db :
  contact_information
    <$> leads_to_insert (import_state df db (length (rows df))).1
  = new_contacts df db.
Proof.
  rewrite import_state_unfold. simpl.
  etrans.
  { apply (classified_insert_contacts (columns df) (salesperson_map_of df db)
             (log QueryContacts
                (resolve_salespersons (unique (salespersons_of df)) db).2)
             (rows df)). done. }
  simpl.
  destruct (resolve_salespersons_keeps (unique (salespersons_of df)) db)
    as [-> _].
  by rewrite take_ge.
Qed.

(** The transaction of an import none of whose write calls raises. *)
Lemma committed_transaction_contacts F df db :
  Forall (λ col, col ∈ columns df) required_columns →
  NoDup (Lead.id <$> leads (pending db)) →
  let n := length (rows df) in
  let b := (import_state df db n).1 in
  ¬ write_raises F b →
  ∃ u db',
    transaction F (leads_to_insert b) (leads_to_update b) (import_state df db n).2
    = inr ((length (new_contacts df db), u), db') ∧
    Lead.contact_information <$> leads (stored db')
    = (Lead.contact_information <$> leads (pending db)) ++ new_contacts df db ∧
    pending db' = stored db'.
Proof.
  intros Hcols Hids n b Hno. set (s := (import_state df db n).2).
  destruct (import_state_session df db n (reflexivity _)) as [Hl _].
  fold s in Hl.
  pose proof (transaction_outcome F (leads_to_insert b) (leads_to_update b) s)
    as Hout.
  destruct (transaction F _ _ s) as [[e s']|[[i u] s']] eqn:Htx.
  { destruct Hno. apply (transaction_raises F b s). eauto. }
  destruct Hout as (-> & -> & _).
  apply transaction_contacts in Htx as [Hst Hc].
  - do 2 eexists. rewrite Hst, Hc, Hl. unfold b, n.
    rewrite <-(import_state_insert_contacts df db), length_fmap. done.
  - by rewrite Hl.
  - intros k d Hkd. rewrite Hl.
    destruct (import_state_classified df db) as (db2 & Hl2 & E).
    pose proof (classified_inv (columns df) (salesperson_map_of df db) db2
                  (rows df) n (reflexivity _)) as [_ _ _ _ _ Hupd _].
    rewrite <-E, Hl2 in Hupd. by apply Hupd.
Qed.

(** X4: After an import whose write calls all return, the store holds the
    contacts it held, followed by the new contacts of the valid rows, each
    once and in the order of its first valid row; their number is
    [rows_imported]. *)
Theorem committed_import_adds_new_contacts F filename df db :
  endswith filename ".csv" = true →
  Forall (λ col, col ∈ columns df) required_columns →
  NoDup (Lead.id <$> leads (pending db)) →
  ¬ write_raises F (import_state df db (length (rows df))).1 →
  ∃ r db',
    load_data_file F filename (Frame df) db = (Returns r, db') ∧
    LoadResult.rows_imported r = length (new_contacts df db) ∧
    Lead.contact_information <$> leads (stored db')
    = (Lead.contact_information <$> leads (pending db)) ++ new_contacts df db ∧
    pending db' = stored db'.
Proof.
  intros Hcsv Hcols Hids Hno.
  rewrite (load_data_file_frame F filename df db Hcsv Hcols).
  destruct (committed_transaction_contacts F df db Hcols Hids Hno)
    as (u & db' & -> & Hc & Hp).
  do 2 eexists. split; [done|]. by split_and!.
Qed.

Lemma committed_import_adds_new_contacts_witness :
  ∃ r db',
    load_data_file no_faults "leads.csv" (Frame sample_frame) sample_session
      = (Returns r, db') ∧
    LoadResult.rows_imported r = 2 ∧
    Lead.contact_information <$> leads (stored db')
    = ["ada@example.com"] ++ ["bob@example.com"; "cy@example.com"] ∧
    pending db' = stored db'.
Proof.
  apply (committed_import_adds_new_contacts no_faults "leads.csv" sample_frame
           sample_session).
  - reflexivity.
  - apply (bool_decide_eq_true_1 _). vm_compute. reflexivity.
  - apply (bool_decide_eq_true_1 _). vm_compute. reflexivity.
  - apply no_faults_never_raise.
Defined.

(** ** Importing a file again *)

(** The error of a row that is not valid depends on the row and its index
    alone. *)
Lemma invalid_row_same_error cols m m' index row b s b' s' :
  valid_row cols row = false →
  ∃ e, process_row cols m index row (b, s) = (add_error e b, s) ∧
       process_row cols m' index row (b', s') = (add_error e b', s').
Proof.
  intros Hv.
  destruct (process_row_cases cols m index row b s)
    as [(_ & e & -> & He)|(Hv' & _)]; [|congruence].
  destruct (process_row_cases cols m' index row b' s')
    as [(_ & e' & -> & He')|(Hv' & _)]; [|congruence].
  exists e. split; [done|]. do 2 f_equal.
  destruct He as [(d & Hd & ->)|(x & Hx & ->)],
           He' as [(d' & Hd' & ->)|(x' & Hx' & ->)]; try done.
  - apply (lead_data_of_row_inl cols m' m) in Hx'. congruence.
  - apply (lead_data_of_row_inl cols m m') in Hx. congruence.
  - apply (lead_data_of_row_inl cols m m') in Hx.
    assert (x = x') as -> by congruence. done.
Qed.

Lemma classified_errors_indep cols rs m c db m' c' db' k :
  k ≤ length rs →
  errors (classified cols m c db rs k).1
  = errors (classified cols m' c' db' rs k).1.
Proof.
  induction k as [|k IH]; intros Hk; [done|].
  destruct (lookup_lt_is_Some_2 rs k) as [row Hrow]; [lia|].
  specialize (IH ltac:(lia)).
  destruct (valid_row cols row) eqn:Hv.
  - by rewrite !(valid_row_errors _ _ _ _ _ k row Hrow Hv).
  - rewrite !(classified_S _ _ _ _ _ _ _ Hrow).
    destruct (classified cols m c db rs k) as [b s],
             (classified cols m' c' db' rs k) as [b' s'].
    destruct (invalid_row_same_error cols m m' k row b s b' s' Hv)
      as (e & -> & ->).
    simpl in *. by rewrite IH.
Qed.

Section Reimport.
Context (cols : list string) (m : gmap string nat) (db : Session)
  (rs : list (list string)).

Local Abbreviation contacts := (Lead.contact_information <$> leads (pending db)).
Local Abbreviation state := (classified cols m contacts db rs).

(** When the session holds the contact of every valid row, nothing is
    inserted and each valid row is a duplicate and an update. *)
Lemma classified_all_known k :
  (∀ row, row ∈ rs → valid_row cols row = true →
          contact_of cols row ∈ contacts) →
  k ≤ length rs →
  let valid := length (filter (λ row, valid_row cols row = true) (take k rs)) in
  leads_to_insert (state k).1 = [] ∧
  duplicates_found (state k).1 = valid ∧
  length (leads_to_update (state k).1) = valid.
Proof using Type.
  intros Hall. induction k as [|k IH]; intros Hk; [done|].
  destruct (lookup_lt_is_Some_2 rs k) as [row Hrow]; [lia|].
  destruct (IH ltac:(lia)) as (Hi & Hd & Hu).
  rewrite (take_S_r _ _ _ Hrow), filter_app, length_app.
  destruct (valid_row cols row) eqn:Hv.
  - rewrite (filter_cons_True _ row) by done. simpl.
    destruct (persisted_contact_step cols m db rs k row Hrow Hv)
      as (l & d & _ & _ & -> & -> & _ & ->).
    { apply Hall; [|done]. by eapply list_elem_of_lookup_2. }
    rewrite length_app, Hi, Hd, Hu. simpl. split_and!; [done|lia..].
  - rewrite (filter_cons_False _ row) by (by rewrite Hv). simpl.
    destruct (invalid_row_step cols m contacts db rs k row Hrow Hv)
      as (_ & _ & _ & -> & -> & -> & _).
    rewrite Hi, Hd, Hu. split_and!; [done|lia..].
Qed.
End Reimport.

(** X5: A file imported a second time, after an import whose write calls all
    returned, inserts nothing: each of its valid rows is a duplicate and an
    update, and its row errors are those of the first import. *)
Theorem reimport_only_updates F filename df db r1 db1 filename2 :
  load_data_file F filename (Frame df) db = (Returns r1, db1) →
  ¬ write_raises F (import_state df db (length (rows df))).1 →
  NoDup (Lead.id <$> leads (pending db)) →
  endswith filename2 ".csv" = true →
  ∃ r2 db2,
    load_data_file no_faults filename2 (Frame df) db1 = (Returns r2, db2) ∧
    LoadResult.rows_imported r2 = 0 ∧
    LoadResult.rows_updated r2 = length (valid_rows df) ∧
    LoadResult.duplicates_found r2 = length (valid_rows df) ∧
    LoadResult.errors r2 = LoadResult.errors r1.
Proof.
  intros H1 Hno Hids Hcsv2.
  pose proof (load_data_file_returns F filename (Frame df) db r1 db1 H1)
    as (Hcsv & _ & (cols & [= <-] & Hcols) & _).
  destruct (committed_transaction_contacts F df db Hcols Hids Hno)
    as (u1 & db' & Htx & Hc & Hp).
  rewrite (load_data_file_frame F filename df db Hcsv Hcols), Htx in H1.
  injection H1 as Hr1 Hdb1. rewrite Hdb1 in Hc, Hp.
  assert (LoadResult.errors r1
          = errors (import_state df db (length (rows df))).1) as He1.
  { by rewrite <-Hr1. }
  rewrite (load_data_file_frame no_faults filename2 df db1 Hcsv2 Hcols).
  set (n := length (rows df)) in *.
  set (b2 := (import_state df db1 n).1).
  pose proof (transaction_outcome no_faults (leads_to_insert b2)
                (leads_to_update b2) (import_state df db1 n).2) as Hout.
  destruct (transaction no_faults _ _ _) as [[e s]|[[i u] s]].
  { destruct Hout as [_ [[_ [=]]|[(? & _ & [=])|[=]]]]. }
  destruct Hout as (-> & -> & _). do 2 eexists. split; [done|]. simpl.
  destruct (import_state_classified df db1) as (s2 & Hl2 & E2).
  destruct (classified_all_known (columns df) (salesperson_map_of df db1) s2
              (rows df) n) as (Hi & Hd & Hu); [|done|].
  { intros row Hrow Hv. rewrite Hl2, Hp, Hc.
    destruct (decide (contact_of (columns df) row
                      ∈ Lead.contact_information <$> leads (pending db)))
      as [|Hn]; apply elem_of_app; [by left|right].
    apply unique_elem_of, list_elem_of_filter. split; [done|].
    apply list_elem_of_fmap. exists row. split; [done|].
    by apply list_elem_of_filter. }
  unfold b2. rewrite E2, Hi, Hd, Hu. rewrite take_ge by done.
  split_and!; try done.
  rewrite He1, !import_state_unfold. apply classified_errors_indep. done.
Qed.

Lemma reimport_only_updates_witness :
  ∃ r2 db2,
    load_data_file no_faults "again.csv" (Frame sample_frame)
      (load_data_file no_faults "leads.csv" (Frame sample_frame)
         sample_session).2
    = (Returns r2, db2) ∧
    LoadResult.rows_imported r2 = 0 ∧
    LoadResult.rows_updated r2 = 4 ∧
    LoadResult.duplicates_found r2 = 4 ∧
    LoadResult.errors r2 = [].
Proof.
  eapply (reimport_only_updates no_faults "leads.csv" sample_frame
            sample_session
            (LoadResult.mk "leads.csv" 4 2 1 2 [])).
  - reflexivity.
  - apply no_faults_never_raise.
  - apply (bool_decide_eq_true_1 _). vm_compute. reflexivity.
  - reflexivity.
Defined.

(** ** Where the entries of the update list come from *)

Section Updates.
Context (cols : list string) (m : gmap string nat) (db : Session)
  (rs : list (list string)).

Local Abbreviation contacts := (Lead.contact_information <$> leads (pending db)).
Local Abbreviation state := (classified cols m contacts db rs).

(** Between two points of the loop the update list grows by entries of the
    valid rows in between, each under the id of the first lead of the
    session with the contact of its row. *)
Lemma classified_updates_between k k' :
  k ≤ k' → k' ≤ length rs →
  ∃ extra,
    leads_to_update (state k').1 = leads_to_update (state k).1 ++ extra ∧
    ∀ i d, (i, d) ∈ extra →
      ∃ j row l, k ≤ j < k' ∧ rs !! j = Some row ∧
                 valid_row cols row = true ∧
                 lead_data_of_row cols m row = inr d ∧
                 fst (query_lead (contact_of cols row) db) = Some l ∧
                 Lead.id l = i.
Proof using Type.
  intros Hkk' Hk'. induction Hkk' as [|k' Hkk' IH].
  { exists []. split; [by rewrite app_nil_r|]. by intros i d ?%elem_of_nil. }
  destruct (IH ltac:(lia)) as (extra & E & Hex).
  destruct (lookup_lt_is_Some_2 rs k') as [row Hrow]; [lia|].
  assert (∀ i d, (i, d) ∈ extra →
            ∃ j row l, k ≤ j < S k' ∧ rs !! j = Some row ∧
                       valid_row cols row = true ∧
                       lead_data_of_row cols m row = inr d ∧
                       fst (query_lead (contact_of cols row) db) = Some l ∧
                       Lead.id l = i) as Hex'.
  { intros i d Hid. destruct (Hex i d Hid) as (j & r & l & ? & ?).
    exists j, r, l. split; [lia|done]. }
  destruct (valid_row cols row) eqn:Hv.
  - destruct (decide (contact_of cols row ∈ contacts)) as [Hc|Hc].
    + destruct (persisted_contact_step cols m db rs k' row Hrow Hv Hc)
        as (l & d & Hq & Hd & -> & _).
      exists (extra ++ [(Lead.id l, d)]). rewrite E, app_assoc.
      split; [done|]. intros i d' [?|Hin]%elem_of_app; [by apply Hex'|].
      apply list_elem_of_singleton in Hin as [= -> ->].
      exists k', row, l. split_and!; try done; lia.
    + exists extra. split; [|done]. rewrite <-E.
      destruct (valid_row_step cols m db rs k' row Hrow Hv)
        as (d & b & s & Es & _ & Hp & [[_ ->]|[_ ->]]); rewrite Es; [|done].
      destruct (fst (query_lead (contact_of cols row) s)) as [l|] eqn:Hq;
        [|done].
      apply query_lead_Some in Hq as [Hl Hlc]. rewrite Hp in Hl.
      destruct Hc. rewrite <-Hlc. apply list_elem_of_fmap. eauto.
  - exists extra. split; [|done].
    destruct (invalid_row_step cols m contacts db rs k' row Hrow Hv)
      as (_ & _ & _ & _ & -> & _). done.
Qed.
End Updates.

(** ** The table of leads after the transaction *)

Lemma update_rows_ids i d ls : Lead.id <$> update_rows i d ls = Lead.id <$> ls.
Proof.
  unfold update_rows. rewrite <-list_fmap_compose.
  apply list_fmap_ext. intros k l _. simpl. by case_decide.
Qed.

Lemma apply_updates_ids us ls : Lead.id <$> apply_updates us ls = Lead.id <$> ls.
Proof.
  revert ls. induction us as [|[i d] us IH]; intros ls; [done|].
  unfold apply_updates in *. simpl. by rewrite IH, update_rows_ids.
Qed.

Lemma update_leads_leads F k us db :
  match update_leads F k us db with
  | inl _ => True
  | inr (_, db') =>
      leads (pending db') = apply_updates us (leads (pending db)) ∧
      sales_persons (pending db') = sales_persons (pending db)
  end.
Proof.
  revert k db. induction us as [|[i d] us IH]; intros k db; simpl; [done|].
  unfold mbind, Tx_bind, call. destruct (update_raises F k); [done|].
  specialize (IH (S k) (update_lead i d db)).
  by destruct (update_leads F (S k) us _) as [|[[] db']].
Qed.

(** A committed transaction leaves the leads of the session, followed by the
    inserted rows, with the updates applied in order; the salespersons are
    those of the session. *)
Lemma transaction_leads F ins us db n u db' :
  transaction F ins us db = inr ((n, u), db') →
  leads (pending db') = apply_updates us (insert_leads (leads (pending db)) ins) ∧
  sales_persons (pending db') = sales_persons (pending db) ∧
  stored db' = pending db'.
Proof.
  unfold transaction, mbind, Tx_bind, mret, Tx_ret, call.
  pose proof (update_leads_leads F 0 us db) as H1.
  pose proof (update_leads_leads F 0 us (bulk_insert_mappings ins db)) as H2.
  destruct (decide (ins = [])) as [->|Hins];
    [clear H2|clear H1; destruct (bulk_insert_raises F); [done|]].
  - destruct (decide (us = [])) as [->|_].
    + destruct (commit_raises F); [done|]. by intros [= _ _ <-].
    + destruct (update_leads F 0 us db) as [[]|[[] s]]; [done|].
      destruct (commit_raises F); [done|]. intros [= _ _ <-]. simpl.
      by destruct H1 as [-> ->].
  - destruct (decide (us = [])) as [->|_].
    + destruct (commit_raises F); [done|]. by intros [= _ _ <-].
    + destruct (update_leads F 0 us _) as [[]|[[] s]]; [done|].
      destruct (commit_raises F); [done|]. intros [= _ _ <-]. simpl.
      by destruct H2 as [-> ->].
Qed.

Lemma apply_updates_app us1 us2 ls :
  apply_updates (us1 ++ us2) ls = apply_updates us2 (apply_updates us1 ls).
Proof. unfold apply_updates. by rewrite foldl_app. Qed.

Lemma update_rows_keeps i d ls l :
  l ∈ ls → i ≠ Lead.id l → l ∈ update_rows i d ls.
Proof.
  intros Hl Hi. unfold update_rows. apply list_elem_of_fmap.
  exists l. split; [|done]. by rewrite decide_False.
Qed.

Lemma update_rows_sets i d ls :
  i ∈ Lead.id <$> ls → lead_of_data i d ∈ update_rows i d ls.
Proof.
  intros (l & -> & Hl)%list_elem_of_fmap. unfold update_rows.
  apply list_elem_of_fmap. exists l. split; [|done]. by rewrite decide_True.
Qed.

Lemma apply_updates_keeps us ls l :
  l ∈ ls → (∀ i d, (i, d) ∈ us → i ≠ Lead.id l) → l ∈ apply_updates us ls.
Proof.
  revert ls. induction us as [|[i d] us IH]; intros ls Hl Hus; [done|].
  unfold apply_updates in *. simpl. apply IH.
  - apply update_rows_keeps; [done|]. apply (Hus i d). by left.
  - intros i' d' H'. apply (Hus i' d'). by right.
Qed.

(** The store an import leaves when its write calls all return. *)
Lemma committed_import_store F filename df db :
  endswith filename ".csv" = true →
  Forall (λ col, col ∈ columns df) required_columns →
  let b := (import_state df db (length (rows df))).1 in
  ¬ write_raises F b →
  ∃ r db',
    load_data_file F filename (Frame df) db = (Returns r, db') ∧
    leads (stored db')
    = apply_updates (leads_to_update b)
        (insert_leads (leads (pending db)) (leads_to_insert b)) ∧
    sales_persons (stored db')
    = sales_persons (pending (import_state df db (length (rows df))).2) ∧
    pending db' = stored db'.
Proof.
  intros Hcsv Hcols b Hno.
  rewrite (load_data_file_frame F filename df db Hcsv Hcols). fold b.
  set (s := (import_state df db (length (rows df))).2).
  destruct (import_state_session df db (length (rows df)) (reflexivity _))
    as [Hl _]. fold s in Hl.
  destruct (transaction F _ _ s) as [[e s']|[[i u] s']] eqn:Htx.
  { destruct Hno. apply (transaction_raises F b s). eauto. }
  apply transaction_leads in Htx as (Hle & Hsp & Hst).
  do 2 eexists. split; [done|]. by rewrite Hst, Hle, Hsp, Hl.
Qed.

(** X6: The ids of the leads stay unique through an import, whatever its
    outcome. *)
Theorem lead_ids_stay_unique F filename csv db r db' :
  NoDup (Lead.id <$> leads (pending db)) →
  NoDup (Lead.id <$> leads (stored db)) →
  load_data_file F filename csv db = (r, db') →
  NoDup (Lead.id <$> leads (stored db')) ∧
  NoDup (Lead.id <$> leads (pending db')).
Proof.
  intros Hp Hs H.
  destruct r as [status_code detail|r|e].
  1, 3: by apply load_data_file_refused in H as (-> & -> & _).
  apply load_data_file_batch in H as (df & b & _ & Hcols & Hb & H).
  unfold write_batch in H. set (n := length (rows df)) in *.
  destruct (import_state_session df db n (reflexivity _)) as [Hl Hst].
  pose proof (transaction_outcome F (leads_to_insert b) (leads_to_update b)
                (import_state df db n).2) as Hout.
  destruct (transaction F _ _ _) as [[e s]|[[i u] s]] eqn:Htx.
  - injection H as _ <-. destruct Hout as [Hout _]. simpl.
    by rewrite Hout, Hst.
  - injection H as _ <-.
    apply transaction_leads in Htx as (Hle & _ & ->).
    rewrite Hle, apply_updates_ids, Hl. split; by apply insert_leads_keys.
Qed.

Lemma lead_ids_stay_unique_witness :
  let db' := (load_data_file update_fails "leads.csv" (Frame sample_frame)
                sample_session).2 in
  NoDup (Lead.id <$> leads (stored db')) ∧
  NoDup (Lead.id <$> leads (pending db')).
Proof.
  eapply (lead_ids_stay_unique update_fails "leads.csv" (Frame sample_frame)
            sample_session).
  - apply (bool_decide_eq_true_1 _). vm_compute. reflexivity.
  - apply (bool_decide_eq_true_1 _). vm_compute. reflexivity.
  - reflexivity.
Defined.

(** ** Stored leads through a committed import *)

(** X7: A stored lead whose contact no valid row of the file carries is still in
    the store, unchanged, after an import whose write calls all return. *)
Theorem unmatched_lead_untouched F filename df db l :
  endswith filename ".csv" = true →
  Forall (λ col, col ∈ columns df) required_columns →
  NoDup (Lead.id <$> leads (pending db)) →
  ¬ write_raises F (import_state df db (length (rows df))).1 →
  l ∈ leads (pending db) →
  (∀ row, row ∈ valid_rows df →
          contact_of (columns df) row ≠ Lead.contact_information l) →
  ∃ r db',
    load_data_file F filename (Frame df) db = (Returns r, db') ∧
    l ∈ leads (stored db').
Proof.
  intros Hcsv Hcols Hids Hno Hl Hnone.
  destruct (committed_import_store F filename df db Hcsv Hcols Hno)
    as (r & db' & H & Hle & _).
  exists r, db'. split; [done|]. rewrite Hle.
  apply apply_updates_keeps.
  { destruct (insert_leads_keys (leads (pending db))
                (leads_to_insert (import_state df db (length (rows df))).1)
                Hids) as [Hpre _].
    by eapply elem_of_prefix. }
  intros i d Hid Hi.
  destruct (import_state_classified df db) as (db2 & Hl2 & E).
  rewrite E in Hid.
  destruct (classified_updates_between (columns df) (salesperson_map_of df db)
              db2 (rows df) 0 (length (rows df)) ltac:(lia) (reflexivity _))
    as (extra & Hex & Horigin).
  simpl in Hex. rewrite Hex in Hid.
  destruct (Horigin i d Hid) as (j & row & l0 & _ & Hrow & Hv & _ & Hq & Hi0).
  apply query_lead_Some in Hq as [Hl0 Hc0]. rewrite Hl2 in Hl0.
  assert (l0 = l) as ->.
  { apply (NoDup_fmap_eq Lead.id (leads (pending db))); [done..|congruence]. }
  apply (Hnone row); [|done].
  apply list_elem_of_filter. split; [done|]. by eapply list_elem_of_lookup_2.
Qed.

Lemma unmatched_lead_untouched_witness :
  let df := {| columns := required_columns;
               rows := [ ["Bob"; "bob@example.com"; "Website"; "Low"; "New";
                          "Joe"] ] |} in
  ∃ r db',
    load_data_file no_faults "leads.csv" (Frame df) sample_session
      = (Returns r, db') ∧
    Lead.mk 1 "Ada" "ada@example.com" WEBSITE LOW NEW "Ann" (Some 1)
      ∈ leads (stored db').
Proof.
  apply (unmatched_lead_untouched no_faults "leads.csv"
           {| columns := required_columns;
              rows := [ ["Bob"; "bob@example.com"; "Website"; "Low"; "New";
                         "Joe"] ] |} sample_session).
  - reflexivity.
  - apply (bool_decide_eq_true_1 _). vm_compute. reflexivity.
  - apply (bool_decide_eq_true_1 _). vm_compute. reflexivity.
  - apply no_faults_never_raise.
  - by left.
  - intros row [_ Hrow]%list_elem_of_filter.
    apply list_elem_of_singleton in Hrow as ->. done.
Defined.

(** X8: A stored lead whose contact valid rows of the file carry holds, after an
    import whose write calls all return, the values of the last of these
    rows, under the id it had. *)
Theorem last_matching_row_wins F filename df db l j row :
  endswith filename ".csv" = true →
  Forall (λ col, col ∈ columns df) required_columns →
  NoDup (Lead.id <$> leads (pending db)) →
  NoDup (Lead.contact_information <$> leads (pending db)) →
  ¬ write_raises F (import_state df db (length (rows df))).1 →
  l ∈ leads (pending db) →
  rows df !! j = Some row → valid_row (columns df) row = true →
  contact_of (columns df) row = Lead.contact_information l →
  (∀ j' row', j < j' → rows df !! j' = Some row' →
              valid_row (columns df) row' = true →
              contact_of (columns df) row' ≠ Lead.contact_information l) →
  ∃ r db' d,
    load_data_file F filename (Frame df) db = (Returns r, db') ∧
    lead_data_of_row (columns df) (salesperson_map_of df db) row = inr d ∧
    lead_of_data (Lead.id l) d ∈ leads (stored db').
Proof.
  intros Hcsv Hcols Hids Hcs Hno Hl Hrow Hv Hc Hlast.
  destruct (committed_import_store F filename df db Hcsv Hcols Hno)
    as (r & db' & H & Hle & _).
  destruct (import_state_classified df db) as (db2 & Hl2 & E).
  set (n := length (rows df)) in *.
  assert (j < n) as Hj by (by apply lookup_lt_Some in Hrow).
  destruct (persisted_contact_step (columns df) (salesperson_map_of df db) db2
              (rows df) j row Hrow Hv) as (l' & d & Hq & Hd & Hu & _).
  { rewrite Hl2, Hc. apply list_elem_of_fmap. eauto. }
  apply query_lead_Some in Hq as [Hl' Hc']. rewrite Hl2 in Hl'.
  assert (l' = l) as ->.
  { apply (NoDup_fmap_eq Lead.contact_information (leads (pending db)));
      [done..|congruence]. }
  destruct (classified_updates_between (columns df) (salesperson_map_of df db)
              db2 (rows df) (S j) n ltac:(lia) (reflexivity _))
    as (extra & Hex & Horigin).
  exists r, db', d. split_and!; [done..|].
  rewrite Hle, E, Hex, Hu, !apply_updates_app.
  apply apply_updates_keeps.
  - unfold apply_updates at 1. simpl. apply update_rows_sets.
    rewrite apply_updates_ids.
    destruct (insert_leads_keys (leads (pending db))
                (leads_to_insert (classified (columns df)
                   (salesperson_map_of df db)
                   (Lead.contact_information <$> leads (pending db2)) db2
                   (rows df) n).1) Hids) as [Hpre _].
    apply list_elem_of_fmap. exists l. split; [done|].
    by eapply elem_of_prefix.
  - intros i d' Hid Hi. simpl in Hi.
    destruct (Horigin i d' Hid)
      as (j' & row' & l0 & Hj' & Hrow' & Hv' & _ & Hq' & Hi0).
    apply query_lead_Some in Hq' as [Hl0 Hc0]. rewrite Hl2 in Hl0.
    assert (l0 = l) as ->.
    { apply (NoDup_fmap_eq Lead.id (leads (pending db))); [done..|congruence]. }
    apply (Hlast j' row'); [lia|done..].
Qed.

Lemma last_matching_row_wins_witness :
  ∃ r db' d,
    load_data_file no_faults "leads.csv" (Frame sample_frame) sample_session
      = (Returns r, db') ∧
    lead_data_of_row required_columns
      (salesperson_map_of sample_frame sample_session)
      ["Ada L"; "ada@example.com"; "Cold Call"; "High"; "Closed"; "Ann"]
    = inr d ∧
    lead_of_data 1 d ∈ leads (stored db').
Proof.
  apply (last_matching_row_wins no_faults "leads.csv" sample_frame
           sample_session
           (Lead.mk 1 "Ada" "ada@example.com" WEBSITE LOW NEW "Ann" (Some 1))
           2 ["Ada L"; "ada@example.com"; "Cold Call"; "High"; "Closed"; "Ann"]);
    try reflexivity.
  - apply (bool_decide_eq_true_1 _). vm_compute. reflexivity.
  - apply (bool_decide_eq_true_1 _). vm_compute. reflexivity.
  - apply (bool_decide_eq_true_1 _). vm_compute. reflexivity.
  - apply no_faults_never_raise.
  - by left.
  - intros [|[|[|[|j']]]] row' Hj' Hrow'; try lia; [|done].
    injection Hrow' as <-. done.
Defined.

(** ** Salespersons through an import *)

Lemma filter_ext_in {A} (P Q : A → Prop) `{!∀ x, Decision (P x)}
    `{!∀ x, Decision (Q x)} (l : list A) :
  (∀ x, x ∈ l → P x ↔ Q x) → filter P l = filter Q l.
Proof.
  induction l as [|a l IH]; intros Hext; [done|].
  rewrite !filter_cons, IH by (intros x Hx; apply Hext; by right).
  destruct (decide (P a)) as [Hp|Hp].
  - rewrite decide_True; [done|]. apply Hext; [by left|done].
  - rewrite decide_False; [done|].
    intros Hq. apply Hp, Hext; [by left|done].
Qed.

Lemma resolve_salesperson_rows acc a :
  a ≠ "" →
  sales_persons (pending (resolve_salesperson acc a).2)
  = sales_persons (pending acc.2)
    ++ (if decide (a ∈ salesperson_names acc.2) then []
        else [SalesPerson.mk
                (next_id (SalesPerson.id <$> sales_persons (pending acc.2)))
                a "temporary_hash"]).
Proof.
  intros Ha. destruct acc as [m db]. unfold resolve_salesperson.
  rewrite decide_False by done.
  pose proof (query_salesperson_found a db) as Hq.
  destruct (query_salesperson a db) as [[p|] db1] eqn:E; simpl in Hq.
  - destruct Hq as [Hp Hn]. injection E as _ <-.
    rewrite decide_True; [by rewrite app_nil_r|].
    apply list_elem_of_fmap; eauto.
  - injection E as _ <-. by rewrite decide_False.
Qed.

(** The rows the resolution adds: one for each name of the list that is not
    empty and not known, with the placeholder password and a fresh id. *)
Lemma resolve_salespersons_rows names acc :
  NoDup names →
  let r := foldl resolve_salesperson acc names in
  ∃ new,
    sales_persons (pending r.2) = sales_persons (pending acc.2) ++ new ∧
    SalesPerson.name <$> new
    = filter (λ n, n ≠ "" ∧ n ∉ salesperson_names acc.2) names ∧
    Forall (λ p, SalesPerson.hashed_password p = "temporary_hash") new ∧
    (NoDup (SalesPerson.id <$> sales_persons (pending acc.2)) →
     NoDup (SalesPerson.id <$> sales_persons (pending r.2))).
Proof.
  revert acc. induction names as [|a names IH]; intros acc Hnd; simpl.
  { exists []. by rewrite app_nil_r. }
  apply NoDup_cons in Hnd as [Ha Hnd].
  destruct (IH (resolve_salesperson acc a) Hnd) as (new & Hsp & Hnames & Hpw & Hid).
  destruct (decide (a = "")) as [->|Hne].
  - assert (resolve_salesperson acc "" = acc) as E.
    { destruct acc. unfold resolve_salesperson. by rewrite decide_True. }
    rewrite E in *. exists new. rewrite filter_cons_False by tauto. done.
  - pose proof (resolve_salesperson_rows acc a Hne) as Hstep.
    assert (filter (λ n, n ≠ "" ∧
                         n ∉ salesperson_names (resolve_salesperson acc a).2)
              names
            = filter (λ n, n ≠ "" ∧ n ∉ salesperson_names acc.2) names) as Hf.
    { apply filter_ext_in. intros n Hn. unfold salesperson_names.
      rewrite Hstep, fmap_app, elem_of_app.
      assert (n ≠ a) by (by intros ->).
      case_decide; simpl; rewrite ?elem_of_nil, ?list_elem_of_singleton; tauto. }
    rewrite Hf in Hnames. rewrite Hsp, Hstep in *.
    destruct (decide (a ∈ salesperson_names acc.2)) as [Hk|Hk].
    + exists new. rewrite app_nil_r in *.
      rewrite filter_cons_False by tauto. done.
    + exists (SalesPerson.mk
                (next_id (SalesPerson.id <$> sales_persons (pending acc.2)))
                a "temporary_hash" :: new).
      split_and!.
      * by rewrite <-app_assoc.
      * rewrite filter_cons_True by done. rewrite fmap_cons, Hnames. done.
      * by constructor.
      * intros Hids. apply Hid. rewrite fmap_app. apply NoDup_app.
        split_and!; [done| |apply NoDup_singleton].
        intros i Hi [->|[]%elem_of_nil]%elem_of_cons.
        apply max_list_elem_of_le in Hi. unfold next_id in Hi. simpl in Hi.
        lia.
Qed.

(** X9: After an import whose write calls all return, the store holds the
    salespersons the session saw, untouched, followed by one new salesperson,
    under the placeholder password, for each name of the file that is not
    empty and was not known; names and ids that were unique are still. *)
Theorem committed_import_adds_salespersons F filename df db :
  endswith filename ".csv" = true →
  Forall (λ col, col ∈ columns df) required_columns →
  ¬ write_raises F (import_state df db (length (rows df))).1 →
  ∃ r db' new,
    load_data_file F filename (Frame df) db = (Returns r, db') ∧
    sales_persons (stored db') = sales_persons (pending db) ++ new ∧
    SalesPerson.name <$> new = new_salesperson_names df db ∧
    Forall (λ p, SalesPerson.hashed_password p = "temporary_hash") new ∧
    (NoDup (salesperson_names db) →
     NoDup (SalesPerson.name <$> sales_persons (stored db'))) ∧
    (NoDup (SalesPerson.id <$> sales_persons (pending db)) →
     NoDup (SalesPerson.id <$> sales_persons (stored db'))).
Proof.
  intros Hcsv Hcols Hno.
  destruct (committed_import_store F filename df db Hcsv Hcols Hno)
    as (r & db' & H & _ & Hsp & _).
  destruct (resolve_salespersons_rows (unique (salespersons_of df)) (∅, db)
              (unique_NoDup _)) as (new & Hrows & Hnames & Hpw & Hids).
  fold (resolve_salespersons (unique (salespersons_of df)) db) in Hrows, Hids.
  assert (pending (import_state df db (length (rows df))).2
          = pending (resolve_salespersons (unique (salespersons_of df)) db).2)
    as Hp.
  { rewrite import_state_unfold. simpl.
    by destruct (classified_inv (columns df) (salesperson_map_of df db)
                   (log QueryContacts
                      (resolve_salespersons (unique (salespersons_of df)) db).2)
                   (rows df) (length (rows df)) (reflexivity _)). }
  rewrite Hp in Hsp. simpl in Hrows, Hnames.
  exists r, db', new. rewrite Hsp, Hrows. split_and!; try done.
  intros Hnd. rewrite fmap_app, Hnames. apply NoDup_app. split_and!; [done| |].
  - intros n Hn [[_ Hnew] _]%list_elem_of_filter. done.
  - apply NoDup_filter, unique_NoDup.
  - intros Hnd. rewrite <-Hrows. by apply Hids.
Qed.

Lemma committed_import_adds_salespersons_witness :
  ∃ r db' new,
    load_data_file no_faults "leads.csv" (Frame sample_frame) sample_session
      = (Returns r, db') ∧
    sales_persons (stored db') = [SalesPerson.mk 1 "Ann" "hash"] ++ new ∧
    SalesPerson.name <$> new = ["Joe"] ∧
    Forall (λ p, SalesPerson.hashed_password p = "temporary_hash") new ∧
    (NoDup ["Ann"] → NoDup (SalesPerson.name <$> sales_persons (stored db'))) ∧
    (NoDup [1] → NoDup (SalesPerson.id <$> sales_persons (stored db'))).
Proof.
  apply (committed_import_adds_salespersons no_faults "leads.csv" sample_frame
           sample_session).
  - reflexivity.
  - apply (bool_decide_eq_true_1 _). vm_compute. reflexivity.
  - apply no_faults_never_raise.
Defined.

Lemma salesperson_of_column df row :
  "Assigned Salesperson" ∈ columns df → row ∈ rows df →
  salesperson_of (columns df) row ∈ salespersons_of df.
Proof.
  intros [i Hi]%col_index_is_Some Hrow.
  unfold salespersons_of, df_get, salesperson_of, cell, row_get.
  rewrite Hi. apply list_elem_of_fmap. eauto.
Qed.

(** X10: Every entry an import puts on its insert list or its update list names
    a salesperson the session holds: an entry with a salesperson id carries
    the id of a salesperson row of its salesperson name, and an entry
    without one has the empty name. *)
Theorem entries_reference_salespersons df db d :
  Forall (λ col, col ∈ columns df) required_columns →
  let b := (import_state df db (length (rows df))).1 in
  let s := (import_state df db (length (rows df))).2 in
  d ∈ leads_to_insert b ∨ (∃ i, (i, d) ∈ leads_to_update b) →
  match salesperson_id d with
  | Some id =>
      ∃ p, p ∈ sales_persons (pending s) ∧ SalesPerson.id p = id ∧
           SalesPerson.name p = assigned_salesperson_name d
  | None => assigned_salesperson_name d = ""
  end.
Proof.
  intros Hcols b s Hd. subst b s.
  rewrite import_state_unfold in *. simpl in *.
  set (r := resolve_salespersons (unique (salespersons_of df)) db) in *.
  set (m := salesperson_map_of df db) in *.
  set (n := length (rows df)) in *.
  pose proof (classified_inv (columns df) m (log QueryContacts r.2) (rows df)
                n (reflexivity _)) as [Hp _ _ Hins _ _ _].
  simpl in Hp, Hins.
  assert (∃ row, row ∈ rows df ∧ lead_data_of_row (columns df) m row = inr d)
    as (row & Hrow & Hdata).
  { destruct Hd as [Hd|[i Hd]].
    - destruct (Hins d Hd) as (_ & j & row & _ & Hj & _ & ?).
      exists row. split; [by eapply list_elem_of_lookup_2|done].
    - destruct (classified_updates_between (columns df) m
                  (log QueryContacts r.2) (rows df) 0 n ltac:(lia)
                  (reflexivity _)) as (extra & Hex & Horigin).
      simpl in Hex. rewrite Hex in Hd.
      destruct (Horigin i d Hd) as (j & row & _ & _ & Hj & _ & ? & _).
      exists row. split; [by eapply list_elem_of_lookup_2|done]. }
  apply lead_data_of_row_inr in Hdata as (_ & -> & -> & _).
  unfold salesperson_id_of. case_decide as Hn; [done|].
  destruct (resolve_salespersons_fold (unique (salespersons_of df)) (∅, db)
              (unique_NoDup _)) as (_ & _ & _ & Hin).
  destruct (Hin (salesperson_of (columns df) row)) as (p & Hpin & Hpn & Hpm);
    [|done|].
  { apply unique_elem_of, salesperson_of_column; [|done].
    by apply required_columns_present. }
  change (foldl resolve_salesperson (∅, db) (unique (salespersons_of df)))
    with r in Hpin, Hpm.
  change (r.1) with m in Hpm. rewrite Hpm, Hp. eauto.
Qed.

Lemma entries_reference_salespersons_witness :
  let s := (import_state sample_frame sample_session 4).2 in
  ∃ p, p ∈ sales_persons (pending s) ∧ SalesPerson.id p = 2 ∧
       SalesPerson.name p = "Joe".
Proof.
  apply (entries_reference_salespersons sample_frame sample_session
           {| name := "Bob"; contact_information := "bob@example.com";
              source := WEBSITE; interest := LOW; status := NEW;
              assigned_salesperson_name := "Joe"; salesperson_id := Some 2 |}).
  - apply (bool_decide_eq_true_1 _). vm_compute. reflexivity.
  - left. simpl. by left.
Defined.

(** * The values of the enums *)

(** X11: The lookup of an enum member by value inverts the value of the member:
    each member is found under its own value and under no other string. *)
Theorem enum_values_round_trip :
  (∀ s, Source_of (Source_value s) = inr s) ∧
  (∀ v s, Source_of v = inr s → v = Source_value s) ∧
  (∀ i, Interest_of (Interest_value i) = inr i) ∧
  (∀ v i, Interest_of v = inr i → v = Interest_value i) ∧
  (∀ s, Status_of (Status_value s) = inr s) ∧
  (∀ v s, Status_of v = inr s → v = Status_value s).
Proof.
  split_and!.
  - by intros [].
  - intros v s. unfold Source_of.
    repeat case_decide; intros [= <-]; by subst.
  - by intros [].
  - intros v i. unfold Interest_of.
    repeat case_decide; intros [= <-]; by subst.
  - by intros [].
  - intros v s. unfold Status_of.
    repeat case_decide; intros [= <-]; by subst.
Qed.

(** * Listing leads *)

Section GetLeads.
Context (source : option Source) (interest : option Interest)
  (status : option Status).

Local Abbreviation matching db :=
  (filter (λ l, lead_matches source interest status l) (leads (pending db))).

(** X12: For parameters in range and an offset within the 64-bit integers, the
    page holds stored leads that pass every filter given, at most [limit] of
    them, and exactly as many as the matching leads from [offset] on allow;
    the count is the number of matching leads, whatever [offset] and [limit]
    are.  A larger offset passes the validation and is answered with status
    500. *)
Theorem get_leads_page offset limit db :
  (0 ≤ offset)%Z → (1 ≤ limit ≤ 100)%Z →
  ((offset < 2 ^ 63)%Z →
   ∃ page,
     get_leads source interest status (Some offset) (Some limit) db
     = Leads page (length (matching db)) ∧
     length page
     = Z.to_nat limit `min` (length (matching db) - Z.to_nat offset) ∧
     length page ≤ 100 ∧
     ∀ x, x ∈ page →
       ∃ l, l ∈ leads (pending db) ∧ x = LeadRead_of l ∧
            (∀ s, source = Some s → Lead.source l = s) ∧
            (∀ i, interest = Some i → Lead.interest l = i) ∧
            (∀ s, status = Some s → Lead.status l = s)) ∧
  ((2 ^ 63 ≤ offset)%Z →
   get_leads source interest status (Some offset) (Some limit) db
   = InternalServerError "Could not fetch leads from the database.").
Proof using Type.
  intros Ho Hl. unfold get_leads. simpl.
  rewrite decide_True by lia. split; intros Hbig.
  2: { by rewrite decide_True by done. }
  rewrite decide_False by lia.
  eexists. split; [done|]. split_and!.
  - by rewrite length_fmap, length_take, length_drop.
  - rewrite length_fmap, length_take. lia.
  - intros x (l & -> & Hin)%list_elem_of_fmap.
    apply subseteq_take, subseteq_drop, list_elem_of_filter in Hin
      as [Hm Hin].
    exists l. split_and!; try done.
    all: unfold lead_matches in Hm;
      apply andb_prop_elim in Hm as [[H1 H2]%andb_prop_elim H3].
    + intros s ->. by apply bool_decide_unpack in H1.
    + intros i ->. by apply bool_decide_unpack in H2.
    + intros s ->. by apply bool_decide_unpack in H3.
Qed.
End GetLeads.

Lemma get_leads_page_witness :
  (∃ page,
     get_leads (Some WEBSITE) None None (Some 0%Z) (Some 10%Z) sample_session
     = Leads page 1 ∧
     length page = 10 `min` (1 - 0) ∧
     length page ≤ 100 ∧
     ∀ x, x ∈ page →
       ∃ l, l ∈ leads (pending sample_session) ∧ x = LeadRead_of l ∧
            (∀ s, Some WEBSITE = Some s → Lead.source l = s) ∧
            (∀ i, None = Some i → Lead.interest l = i) ∧
            (∀ s, None = Some s → Lead.status l = s)) ∧
  get_leads None None None (Some (2 ^ 63)%Z) (Some 10%Z) sample_session
  = InternalServerError "Could not fetch leads from the database.".
Proof.
  split.
  - apply (get_leads_page (Some WEBSITE) None None 0 10 sample_session); lia.
  - apply (get_leads_page None None None (2 ^ 63) 10 sample_session); lia.
Defined.

Lemma filter_lead_matches_all (ls : list Lead.t) :
  filter (λ l, lead_matches None None None l) ls = ls.
Proof.
  induction ls as [|l ls IH]; [done|].
  rewrite filter_cons_True by done. by rewrite IH.
Qed.

(** X14: After an import whose write calls all return, the listing without
    filters counts the leads the session held and those the import
    reports as imported. *)
Theorem import_then_list F filename df db :
  endswith filename ".csv" = true →
  Forall (λ col, col ∈ columns df) required_columns →
  NoDup (Lead.id <$> leads (pending db)) →
  ¬ write_raises F (import_state df db (length (rows df))).1 →
  ∃ r db' page,
    load_data_file F filename (Frame df) db = (Returns r, db') ∧
    get_leads None None None None None db'
    = Leads page (length (leads (pending db)) + LoadResult.rows_imported r).
Proof.
  intros Hcsv Hcols Hids Hno.
  rewrite (load_data_file_frame F filename df db Hcsv Hcols).
  destruct (committed_transaction_contacts F df db Hcols Hids Hno)
    as (u & db' & -> & Hc & Hp).
  eexists _, db', _. split; [reflexivity|]. unfold get_leads.
  rewrite decide_True by (simpl; lia).
  rewrite decide_False by (simpl; lia).
  rewrite filter_lead_matches_all. simpl.
  f_equal. rewrite Hp.
  apply (f_equal length) in Hc.
  rewrite length_app, !length_fmap in Hc. lia.
Qed.

Lemma import_then_list_witness :
  ∃ r db' page,
    load_data_file no_faults "leads.csv" (Frame sample_frame) sample_session
      = (Returns r, db') ∧
    get_leads None None None None None db'
    = Leads page (1 + LoadResult.rows_imported r).
Proof.
  apply (import_then_list no_faults "leads.csv" sample_frame sample_session).
  - reflexivity.
  - apply (bool_decide_eq_true_1 _). vm_compute. reflexivity.
  - apply (bool_decide_eq_true_1 _). vm_compute. reflexivity.
  - apply no_faults_never_raise.
Defined.

(** ** Login and the authentication gate *)

Section AuthProperties.
Context (pwd_hash : string → string → string)
  (pwd_verify : string → string → bool)
  (hmac_sha256 : string → string → Claims → string) (SECRET_KEY : string).

Local Abbreviation current_user := (get_current_user pwd_hash hmac_sha256 SECRET_KEY).
Local Abbreviation auth_token := (verify_auth_token pwd_hash hmac_sha256 SECRET_KEY).
Local Abbreviation log_in := (login pwd_hash pwd_verify hmac_sha256 SECRET_KEY).
Local Abbreviation admin := ("admin@example.com" : string).

Lemma get_user_Some salt email user :
  get_user pwd_hash salt email = Some user ↔
  email = admin ∧ user = UserInDB.mk admin (pwd_hash salt "password").
Proof using Type.
  unfold get_user, get_password_hash.
  destruct (decide (email = admin)) as [->|Hne]; split.
  - by intros [= <-].
  - by intros [_ ->].
  - done.
  - by intros [? _].
Qed.

Lemma get_user_None salt email :
  get_user pwd_hash salt email = None ↔ email ≠ admin.
Proof using Type.
  unfold get_user. destruct (decide (email = admin)); split; done.
Qed.

(** The validation of the token of a login, at any time. *)
Lemma verify_login_token subject t now :
  let expiry := timegm (t + timedelta_minutes ACCESS_TOKEN_EXPIRE_MINUTES) in
  verify_token hmac_sha256 SECRET_KEY
    (login_token hmac_sha256 SECRET_KEY subject t) now
  = if decide (timegm now ≤ expiry)%Z
    then Some (subject, Some expiry) else None.
Proof using Type.
  intros expiry.
  unfold login_token, create_access_token, jwt_encode, verify_token, jwt_decode.
  rewrite (decide_False (P := _ = 0%Z)) by done.
  rewrite decide_False by (intros H; apply H; by left).
  rewrite decide_False by (by intros H).
  simpl. fold expiry. destruct (decide (expiry < timegm now)%Z) as [Hlt|Hge].
  - by rewrite decide_False by lia.
  - by rewrite decide_True by lia.
Qed.

(** X15: The access token created from [data] and [expires_delta] at [t]
    validates, at any time, exactly when it has a subject and the whole
    second of the time is not past the whole second of [t] plus the lifetime;
    the lifetime is the delta given, and 30 minutes when none or a zero one
    is given.  It then gives the subject and the expiry back. *)
Theorem access_token_validates_until_expiry data expires_delta t now :
  let lifetime :=
    match expires_delta with
    | Some delta =>
        if decide (delta = 0)%Z then timedelta_minutes 30 else delta
    | None => timedelta_minutes 30
    end in
  let expiry := timegm (t + lifetime) in
  verify_token hmac_sha256 SECRET_KEY
    (create_access_token hmac_sha256 SECRET_KEY data expires_delta t) now
  = match data with
    | Some subject =>
        if decide (timegm now ≤ expiry)%Z
        then Some (subject, Some expiry) else None
    | None => None
    end.
Proof using Type.
  intros lifetime expiry.
  assert (create_access_token hmac_sha256 SECRET_KEY data expires_delta t
          = Jws ALGORITHM {| sub := data; exp := Some expiry |}
              (hmac_sha256 SECRET_KEY ALGORITHM
                 {| sub := data; exp := Some expiry |})) as ->.
  { unfold create_access_token, jwt_encode, expiry, lifetime.
    destruct expires_delta as [delta|]; [|done].
    by destruct (decide (delta = 0)%Z). }
  unfold verify_token, jwt_decode.
  rewrite decide_False by (intros H; apply H; by left).
  rewrite decide_False by (by intros H).
  simpl. destruct (decide (expiry < timegm now)%Z) as [Hlt|Hge].
  - destruct data; [|done]. by rewrite decide_False by lia.
  - destruct data; [|done]. by rewrite decide_True by lia.
Qed.

(** X16: The login answers with a token exactly for the email
    admin@example.com with the password "password"; the token is the one
    of that subject with 30 minutes of life and the type is "bearer".  Every
    other pair of email and password gets the same 401. *)
Theorem login_accepts_one_credential salt email password t
  (Hverify : ∀ s p q, pwd_verify q (pwd_hash s p) = true ↔ q = p) :
  log_in salt email password t
  = if decide (email = admin ∧ password = "password")
    then Granted (login_token hmac_sha256 SECRET_KEY admin t, "bearer")
    else Unauthorized "Incorrect email or password".
Proof using Type.
  unfold login, authenticate_user, verify_password.
  destruct (get_user pwd_hash salt email) as [user|] eqn:Hu.
  - apply get_user_Some in Hu as [-> ->]. simpl.
    destruct (pwd_verify password (pwd_hash salt "password")) eqn:Hp.
    + apply Hverify in Hp as ->. by rewrite decide_True.
    + rewrite decide_False; [done|]. intros [_ ->].
      by rewrite (proj2 (Hverify salt _ _) eq_refl) in Hp.
  - apply get_user_None in Hu. rewrite decide_False; [done|]. by intros [? _].
Qed.

(** X17: The token of a successful login at [t] opens the gate, in
    [get_current_user] and in [verify_auth_token], as long as the whole
    second of the time is not past the whole second of [t] plus 30 minutes,
    and is refused by both afterwards. *)
Theorem login_token_opens_gate salt salt' t now
  (Hverify : ∀ s p, pwd_verify p (pwd_hash s p) = true) :
  let expiry := timegm (t + timedelta_minutes ACCESS_TOKEN_EXPIRE_MINUTES) in
  ∃ token,
    log_in salt admin "password" t = Granted (token, "bearer") ∧
    ((timegm now ≤ expiry)%Z →
     current_user salt' token now
     = Granted (UserInDB.mk admin (pwd_hash salt' "password")) ∧
     auth_token salt' token now = Granted (true, admin)) ∧
    ((expiry < timegm now)%Z →
     current_user salt' token now
     = Unauthorized "Could not validate credentials" ∧
     auth_token salt' token now = Unauthorized "Invalid or expired token").
Proof using Type.
  intros expiry.
  exists (login_token hmac_sha256 SECRET_KEY admin t).
  pose proof (verify_login_token admin t now) as Hv. simpl in Hv.
  split_and!.
  - unfold login, authenticate_user, verify_password. simpl.
    unfold get_password_hash. by rewrite Hverify.
  - intros Hnow. unfold get_current_user, verify_auth_token.
    rewrite Hv, decide_True by done. done.
  - intros Hnow. unfold get_current_user, verify_auth_token.
    rewrite Hv, decide_False by (fold expiry; lia). done.
Qed.
(** X18: On the tokens of the model (no JWS, or a payload of nothing but a
    string [sub] and an integer [exp]), [get_current_user] lets a request
    pass exactly when the token is signed with the key of the process under
    HS256, has the subject admin@example.com and an expiry, if any, not
    before the whole second of the time; the user is then that of the
    subject.  Every refusal has the one detail. *)
Theorem current_user_granted_iff salt token now :
  (∀ user, current_user salt token now = Granted user ↔
     user = UserInDB.mk admin (pwd_hash salt "password") ∧
     ∃ payload,
       token = Jws ALGORITHM payload (hmac_sha256 SECRET_KEY ALGORITHM payload) ∧
       sub payload = Some admin ∧
       ∀ x, exp payload = Some x → (timegm now ≤ x)%Z) ∧
  (∀ detail, current_user salt token now = Unauthorized detail →
     detail = "Could not validate credentials").
Proof using Type.
  unfold get_current_user. split.
  - intros user. split.
    + destruct (verify_token _ _ token now) as [[email e]|] eqn:Hv; [|done].
      destruct (get_user pwd_hash salt email) as [u|] eqn:Hu; [|done].
      intros [= ->]. apply get_user_Some in Hu as [-> ->].
      apply verify_token_Some in Hv as (payload & ? & ? & <- & ?).
      split; [done|]. by exists payload.
    + intros (-> & payload & Ht & Hsub & Hexp).
      assert (verify_token hmac_sha256 SECRET_KEY token now
              = Some (admin, exp payload)) as ->.
      { apply verify_token_Some. by exists payload. }
      done.
  - intros detail.
    destruct (verify_token _ _ token now) as [[email e]|]; [|by intros [= <-]].
    destruct (get_user pwd_hash salt email); [done|by intros [= <-]].
Qed.

(** X19: [verify_auth_token] answers exactly when [get_current_user] lets the
    token pass, always with valid true and the email admin@example.com; it
    refuses with "User not found" exactly for a valid token of another
    subject and with "Invalid or expired token" exactly when the token does
    not validate. *)
Theorem auth_token_agrees_with_gate salt token now :
  (∀ valid email, auth_token salt token now = Granted (valid, email) ↔
     valid = true ∧ email = admin ∧
     ∃ user, current_user salt token now = Granted user) ∧
  (auth_token salt token now = Unauthorized "User not found" ↔
     ∃ email e, verify_token hmac_sha256 SECRET_KEY token now = Some (email, e) ∧
                email ≠ admin) ∧
  (auth_token salt token now = Unauthorized "Invalid or expired token" ↔
     verify_token hmac_sha256 SECRET_KEY token now = None).
Proof using Type.
  unfold verify_auth_token, get_current_user.
  destruct (verify_token _ _ token now) as [[email e]|] eqn:Hv.
  - destruct (get_user pwd_hash salt email) as [u|] eqn:Hu.
    + apply get_user_Some in Hu as [-> ->]. simpl. split_and!.
      * intros valid email. split.
        -- intros [= <- <-]. split_and!; try done. by eexists.
        -- by intros (-> & -> & _).
      * split; [done|]. by intros (email & e' & [= <- <-] & Hne).
      * done.
    + apply get_user_None in Hu. split_and!.
      * intros valid email'. split; [done|]. by intros (_ & _ & user & ?).
      * split; [|done]. intros _. by exists email, e.
      * done.
  - split_and!.
    + intros valid email. split; [done|]. by intros (_ & _ & user & ?).
    + split; [done|]. by intros (email & e & ? & _).
    + done.
Qed.
End AuthProperties.

Lemma login_accepts_one_credential_witness :
  login sample_pwd_hash sample_pwd_verify sample_hash "secret"
    "salt" "admin@example.com" "password" 0
  = Granted (login_token sample_hash "secret" "admin@example.com" 0, "bearer") ∧
  login sample_pwd_hash sample_pwd_verify sample_hash "secret"
    "salt" "admin@example.com" "passw0rd" 0
  = Unauthorized "Incorrect email or password".
Proof.
  assert (∀ s p q : string,
    sample_pwd_verify q (sample_pwd_hash s p) = true ↔ q = p) as Hverify.
  { intros s p q. unfold sample_pwd_verify, sample_pwd_hash.
    apply bool_decide_eq_true. }
  split.
  - apply (login_accepts_one_credential sample_pwd_hash sample_pwd_verify
             sample_hash "secret" "salt" "admin@example.com" "password" 0
             Hverify).
  - apply (login_accepts_one_credential sample_pwd_hash sample_pwd_verify
             sample_hash "secret" "salt" "admin@example.com" "passw0rd" 0
             Hverify).
Defined.

Lemma login_token_opens_gate_witness :
  ∃ token,
    login sample_pwd_hash sample_pwd_verify sample_hash "secret"
      "salt" "admin@example.com" "password" 0 = Granted (token, "bearer") ∧
    ((timegm 1800999999 ≤ 1800)%Z →
     get_current_user sample_pwd_hash sample_hash "secret" "pepper" token
       1800999999
     = Granted (UserInDB.mk "admin@example.com" "password") ∧
     verify_auth_token sample_pwd_hash sample_hash "secret" "pepper" token
       1800999999
     = Granted (true, "admin@example.com")) ∧
    ((1800 < timegm 1800999999)%Z →
     get_current_user sample_pwd_hash sample_hash "secret" "pepper" token
       1800999999
     = Unauthorized "Could not validate credentials" ∧
     verify_auth_token sample_pwd_hash sample_hash "secret" "pepper" token
       1800999999
     = Unauthorized "Invalid or expired token").
Proof.
  apply (login_token_opens_gate sample_pwd_hash sample_pwd_verify sample_hash
           "secret" "salt" "pepper" 0 1800999999).
  intros s p. unfold sample_pwd_verify, sample_pwd_hash.
  by apply bool_decide_eq_true.
Defined.
